(** * Build helpers of the icon collection: [scripts/helpers.mjs]

    A shallow embedding of the fingerprint engine ([hash],
    [generateHashedKey], [hasDuplicatedChildren]), of [readFile] and of the
    rename workflow ([renameIcon]), with the properties the specification
    states about them, and of the other helpers of the module (names,
    files, metadata, arrays, [minifySvg]) with properties of their own. *)

From Stdlib Require Import ZArith List Lia String Ascii QArith DecimalString.
From stdpp Require Import base gmap list strings.

Local Open Scope Z_scope.

(** ** JavaScript strings and numbers *)

(** A JavaScript string is a sequence of UTF-16 code units; [charCodeAt]
    reads one of them.  Literals of the source are written [js "..."]. *)
Abbreviation jsstring := (list Z).

Definition js (s : string) : jsstring :=
  (fun a => Z.of_N (N_of_ascii a)) <$> list_ascii_of_string s.

(** A number of JavaScript is a double: not-a-number, an infinity, or the
    finite value [m * 2 ^ e].  The sign of a zero is not kept: no operation
    below tells [-0] from [0]. *)
Inductive number :=
| NaN
| Infinity (negative : bool)
| Finite (m e : Z).

(** The number that an integer literal of the source denotes. *)
Definition int (z : Z) : number := Finite z 0.

(** [m / 2 ^ k] rounded to the nearest integer, a tie going to the even
    one. *)
Definition round_half_even (m k : Z) : Z :=
  let q := m / 2 ^ k in
  let r := m mod 2 ^ k in
  let half := 2 ^ (k - 1) in
  if r <? half then q
  else if half <? r then q + 1
  else if Z.even q then q else q + 1.

(** The double nearest to the real number [m * 2 ^ e]: a significand of
    53 bits, no exponent below -1074, an infinity from [2 ^ 1024] on. *)
Definition round_double (m e : Z) : number :=
  let bits := Z.log2 (Z.abs m) + 1 in
  let k := Z.max (bits - 53) (- 1074 - e) in
  let q := if 0 <? k then round_half_even m k else m in
  let e' := if 0 <? k then e + k else e in
  if q =? 0 then Finite 0 0
  else if 1024 <=? Z.log2 (Z.abs q) + e' then Infinity (m <? 0)
  else Finite q e'.

(** [a * b]. *)
Definition js_mul (a b : number) : number :=
  match a, b with
  | NaN, _ | _, NaN => NaN
  | Infinity s, Infinity t => Infinity (xorb s t)
  | Infinity s, Finite m _ | Finite m _, Infinity s =>
      if m =? 0 then NaN else Infinity (xorb s (m <? 0))
  | Finite m1 e1, Finite m2 e2 => round_double (m1 * m2) (e1 + e2)
  end.

(** The integer a finite number is cut to, towards zero. *)
Definition truncate (m e : Z) : Z :=
  if 0 <=? e then m * 2 ^ e else Z.quot m (2 ^ (- e)).

(** The integer a number is, when it is one. *)
Definition integer_value (x : number) : option Z :=
  match x with
  | Finite m e =>
      if 0 <=? e then Some (m * 2 ^ e)
      else if m mod 2 ^ (- e) =? 0 then Some (m / 2 ^ (- e)) else None
  | _ => None
  end.

(** The wrap of an integer to 32 bits, signed and unsigned. *)
Definition to_int32 (x : Z) : Z := (x + 2 ^ 31) mod 2 ^ 32 - 2 ^ 31.
Definition to_uint32 (x : Z) : Z := x mod 2 ^ 32.

(** ToInt32 and ToUint32: not-a-number and the infinities give 0, a finite
    number is cut to an integer and wrapped. *)
Definition ToInt32 (x : number) : Z :=
  match x with
  | Finite m e => to_int32 (truncate m e)
  | _ => 0
  end.

Definition ToUint32 (x : number) : Z :=
  match x with
  | Finite m e => to_uint32 (truncate m e)
  | _ => 0
  end.

(** [a ^ b]: both operands go through ToInt32, the result is an int32. *)
Definition js_xor (a b : number) : number :=
  int (Z.lxor (ToInt32 a) (ToInt32 b)).

(** [x >>> 0], an integer of [0], ..., [2 ^ 32 - 1]. *)
Definition js_ushr0 (x : number) : Z := ToUint32 x.

(** [a === b] on numbers: not-a-number equals nothing, itself included. *)
Definition number_strict_equals (a b : number) : bool :=
  match a, b with
  | Infinity s, Infinity t => bool_decide (s = t)
  | Finite m e, Finite m' e' =>
      let d := Z.min e e' in
      m * 2 ^ (e - d) =? m' * 2 ^ (e' - d)
  | _, _ => false
  end.

(** [string.charCodeAt(i)]: out of range the method yields NaN. *)
Definition charCodeAt (s : jsstring) (i : nat) : number :=
  match s !! i with
  | Some c => int c
  | None => NaN
  end.

(** One digit of [Number.prototype.toString(36)]: 0-9 then a-z. *)
Definition digit36 (d : Z) : Z := if d <? 10 then 48 + d else 87 + d.

Fixpoint digits36 (fuel : nat) (n : Z) (acc : jsstring) : jsstring :=
  match fuel with
  | O => acc
  | S fuel' =>
      let acc' := digit36 (n mod 36) :: acc in
      if n / 36 =? 0 then acc' else digits36 fuel' (n / 36) acc'
  end.

(** [n.toString(36)] for an integer [n >= 0]: most significant digit first,
    no leading zero, ["0"] for zero.  A number below [2 ^ fuel] has at most
    [fuel] digits. *)
Definition toString36 (n : Z) : jsstring :=
  digits36 (S (Z.to_nat (Z.log2 n))) n [].

(** [s.substr(0, n)]. *)
Definition substr0 (n : nat) (s : jsstring) : jsstring := take n s.

(** The value a base-36 numeral denotes (digits most significant first). *)
Definition digit36_value (c : Z) : Z := if c <? 58 then c - 48 else c - 87.

Definition base36_value (s : jsstring) : Z :=
  fold_left (fun v c => v * 36 + digit36_value c) s 0.

(** The character class [[0-9a-z]]. *)
Definition base36_char (c : Z) : bool :=
  ((48 <=? c) && (c <=? 57)) || ((97 <=? c) && (c <=? 122)).

(** ** Fingerprint engine *)

(** The [while (i)] loop of [hash], with [i] counting down:
    [seed = (seed * 33) ^ string.charCodeAt(--i)]. *)
Fixpoint hash_loop (string : jsstring) (i : nat) (seed : number) : number :=
  match i with
  | O => seed
  | S i' => hash_loop string i' (js_xor (js_mul seed (int 33)) (charCodeAt string i'))
  end.

Definition default_seed : number := int 5381.

(** [hash(string, seed = 5381)]; [None] is the omitted argument. *)
Definition hash (string : jsstring) (seed : option number) : jsstring :=
  let seed := default default_seed seed in
  let seed := hash_loop string (length string) seed in
  substr0 6 (toString36 (js_ushr0 seed)).

(** The combining step of the specification, on plain integers:
    [value = (value * 33) XOR charCode]. *)
Definition mix (value c : Z) : Z := Z.lxor (value * 33) c.

(** A rendering of [n] in base 36, as the specification means it: digits
    of [[0-9a-z]], the most significant first, that denote [n], without a
    leading zero. *)
Definition base36_numeral (digits : jsstring) (n : Z) : Prop :=
  digits <> []
  /\ Forall (fun c => base36_char c = true) digits
  /\ (head digits = Some 48 -> digits = [48])
  /\ base36_value digits = n.

(** The hash as the specification words it, for an integer seed: start
    from the seed, scan the characters from the last to the first with the
    combining step, then reduce to 32 bits unsigned, render in base 36 and
    keep the first six characters. *)
Definition hash_reference (s : jsstring) (k : Z) (out : jsstring) : Prop :=
  exists rendered : jsstring,
    base36_numeral rendered (fold_left mix (rev s) k mod 2 ^ 32)
    /\ out = take 6 rendered.

(** The loop of [hash] as a transition system on the pairs [(i, seed)]:
    a turn is taken while [i] is not zero, and the loop is left at zero. *)
Inductive hash_step (string : jsstring) : nat * number -> nat * number -> Prop :=
| hash_step_turn (i : nat) (seed : number) :
    hash_step string (S i, seed)
      (i, js_xor (js_mul seed (int 33)) (charCodeAt string i)).

(** An evaluation of [hash(string, seed)] that returns [out]. *)
Definition hash_run (string : jsstring) (seed : option number) (out : jsstring) : Prop :=
  exists final : number,
    rtc (hash_step string)
        (length string, default default_seed seed) (O, final)
    /\ out = substr0 6 (toString36 (js_ushr0 final)).

(** *** Serialisation of an entity

    [JSON.stringify([name, attributes])] for a name and an object of string
    attributes, after the QuoteJSONString operation of ECMAScript. *)

Definition hex_digit (d : Z) : Z := if d <? 10 then 48 + d else 87 + d.

(** The escape [\uXXXX] of a code unit, with lowercase hexadecimal digits. *)
Definition unicode_escape (c : Z) : jsstring :=
  [92; 117; hex_digit (c / 4096 mod 16); hex_digit (c / 256 mod 16);
   hex_digit (c / 16 mod 16); hex_digit (c mod 16)].

Definition is_high_surrogate (c : Z) : bool := (55296 <=? c) && (c <=? 56319).
Definition is_low_surrogate (c : Z) : bool := (56320 <=? c) && (c <=? 57343).

(** A code unit that is not a surrogate: the two-character escapes, the
    [\u] escape for the other control characters, itself otherwise. *)
Definition quote_unit (c : Z) : jsstring :=
  if c =? 8 then js "\b"
  else if c =? 9 then js "\t"
  else if c =? 10 then js "\n"
  else if c =? 12 then js "\f"
  else if c =? 13 then js "\r"
  else if c =? 34 then [92; 34]
  else if c =? 92 then js "\\"
  else if c <? 32 then unicode_escape c
  else [c].

(** A surrogate pair stands for itself, a lone surrogate is escaped. *)
Fixpoint quote_units (s : jsstring) : jsstring :=
  match s with
  | [] => []
  | c :: rest =>
      if is_high_surrogate c then
        match rest with
        | d :: rest' =>
            if is_low_surrogate d then c :: d :: quote_units rest'
            else unicode_escape c ++ quote_units rest
        | [] => unicode_escape c
        end
      else if is_low_surrogate c then unicode_escape c ++ quote_units rest
      else quote_unit c ++ quote_units rest
  end.

Definition QuoteJSONString (s : jsstring) : jsstring :=
  [34] ++ quote_units s ++ [34].

(** [parts.join(separator)]. *)
Fixpoint join (separator : jsstring) (parts : list jsstring) : jsstring :=
  match parts with
  | [] => []
  | [p] => p
  | p :: rest => p ++ separator ++ join separator rest
  end.

(** An entity: a name and its attributes, in the object's property order. *)
Record Entity := {
  name : jsstring;
  attributes : list (jsstring * jsstring)
}.

Definition stringify_attributes (attrs : list (jsstring * jsstring)) : jsstring :=
  js "{"
  ++ join (js ",")
       (map (fun kv => QuoteJSONString kv.1 ++ js ":" ++ QuoteJSONString kv.2) attrs)
  ++ js "}".

(** [JSON.stringify([name, attributes])]. *)
Definition stringify_entity (name : jsstring) (attributes : list (jsstring * jsstring))
  : jsstring :=
  js "[" ++ QuoteJSONString name ++ js "," ++ stringify_attributes attributes ++ js "]".

Definition generateHashedKey (e : Entity) : jsstring :=
  hash (stringify_entity (name e) (attributes e)) None.

(** [array.findIndex(p)]: the first index whose element satisfies [p],
    or -1. *)
Fixpoint findIndex_from {A} (p : A -> bool) (l : list A) (i : Z) : Z :=
  match l with
  | [] => -1
  | x :: l' => if p x then i else findIndex_from p l' (i + 1)
  end.

Definition findIndex {A} (p : A -> bool) (l : list A) : Z := findIndex_from p l 0.

(** [array.every((x, index) => p(x, index))]. *)
Fixpoint every_from {A} (p : A -> Z -> bool) (l : list A) (i : Z) : bool :=
  match l with
  | [] => true
  | x :: l' => if p x i then every_from p l' (i + 1) else false
  end.

Definition every {A} (p : A -> Z -> bool) (l : list A) : bool := every_from p l 0.

(** [a === b] on strings. *)
Definition str_eqb (a b : jsstring) : bool := bool_decide (a = b).

Definition hasDuplicatedChildren (children : list Entity) : bool :=
  let hashedKeys := map generateHashedKey children in
  negb (every
          (fun key index =>
             index =? findIndex (fun childKey => str_eqb childKey key) hashedKeys)
          hashedKeys).

(** ** Outcomes of effectful code *)

(** What a [throw] carries. *)
Inductive exn :=
| Error (message : jsstring)          (* [new Error(message)] *)
| TypeError
| SyntaxError
| ReferenceError (identifier : string)
| SystemError (code : string) (path : jsstring)   (* a failed [fs] call *)
| GitError (command : string).                    (* a failed git command *)

Inductive outcome (A : Type) :=
| Returned (a : A)
| Thrown (e : exn).

Arguments Returned {A} a.
Arguments Thrown {A} e.

(** ** JSON values *)

#[local] Set Warnings "-register-all".

(** What [JSON.parse] returns and [JSON.stringify] takes.  An object lists
    its properties in property order. *)
Inductive json :=
| JNull
| JBool (b : bool)
| JNum (x : Q)
| JStr (s : jsstring)
| JArr (items : list json)
| JObj (fields : list (jsstring * json)).

(** The runtime's [JSON] object: [JSON.parse(text)], with [None] for the
    SyntaxError of a malformed text, and [JSON.stringify(value, null, space)]. *)
Class JSON := {
  JSON_parse : jsstring -> option json;
  JSON_stringify : json -> Z -> jsstring
}.

(** [object[key]]: [None] is [undefined]. *)
Fixpoint get_property (key : jsstring) (fields : list (jsstring * json)) : option json :=
  match fields with
  | [] => None
  | (k, v) :: rest => if bool_decide (k = key) then Some v else get_property key rest
  end.

(** [object[key] = v]: an existing property keeps its place, a new one
    goes last. *)
Fixpoint set_property (key : jsstring) (v : json) (fields : list (jsstring * json))
  : list (jsstring * json) :=
  match fields with
  | [] => [(key, v)]
  | (k, v0) :: rest =>
      if bool_decide (k = key) then (k, v) :: rest
      else (k, v0) :: set_property key v rest
  end.

(** [delete object[key]]. *)
Definition delete_property (key : jsstring) (fields : list (jsstring * json))
  : list (jsstring * json) :=
  filter (fun kv => kv.1 <> key) fields.

(** [name !== newName] for an element of a parsed array. *)
Definition strict_neq_string (v : json) (s : jsstring) : bool :=
  match v with
  | JStr t => negb (str_eqb t s)
  | _ => true
  end.

(** [value.aliases] read from a parsed document; reading a property of
    [null] is a TypeError, a primitive or an array has no such property. *)
Definition read_aliases (jsonData : json) : outcome (option json) :=
  match jsonData with
  | JNull => Thrown TypeError
  | JObj fields => Returned (get_property (js "aliases") fields)
  | _ => Returned None
  end.

(** [jsonData.aliases = v].  The module is strict code: creating a property
    on a primitive is a TypeError.  A named property put on an array is not
    part of what [JSON.stringify] writes. *)
Definition assign_aliases (jsonData : json) (v : json) : outcome json :=
  match jsonData with
  | JObj fields => Returned (JObj (set_property (js "aliases") v fields))
  | JArr items => Returned (JArr items)
  | _ => Thrown TypeError
  end.

(** [v.length === 0] for the value just stored in [aliases]: strings and
    arrays have a length, an object answers with its own [length] property,
    a number or a boolean reads [undefined], and [null] has no properties
    at all. *)
Definition length_is_zero (v : json) : outcome bool :=
  match v with
  | JNull => Thrown TypeError
  | JStr s => Returned (Z.of_nat (length s) =? 0)
  | JArr items => Returned (Z.of_nat (length items) =? 0)
  | JObj fields =>
      Returned (match get_property (js "length") fields with
                | Some (JNum x) => Qeq_bool x 0
                | _ => false
                end)
  | JBool _ | JNum _ => Returned false
  end.

(** [array.push(x)] returns the new length of the array, not the array. *)
Definition push_result (a : list json) (x : json) : Z :=
  Z.of_nat (length (a ++ [x])).

(** [jsonData.aliases.length === 0]; [undefined] has no properties. *)
Definition aliases_length_is_zero (jsonData : json) : outcome bool :=
  match read_aliases jsonData with
  | Thrown e => Thrown e
  | Returned None => Thrown TypeError
  | Returned (Some v) => length_is_zero v
  end.

(** [delete jsonData.aliases]. *)
Definition delete_aliases (jsonData : json) : json :=
  match jsonData with
  | JObj fields => JObj (delete_property (js "aliases") fields)
  | other => other
  end.

(** Lines 268-270: [if (jsonData.aliases.length === 0) delete jsonData.aliases]. *)
Definition cleanup_empty_aliases (jsonData : json) : outcome json :=
  match aliases_length_is_zero jsonData with
  | Thrown e => Thrown e
  | Returned true => Returned (delete_aliases jsonData)
  | Returned false => Returned jsonData
  end.

(** Lines 266-273 of [renameIcon], from the parsed document to the value
    handed to [JSON.stringify]. *)
Definition migrate_aliases (jsonData : json) (oldName newName : jsstring)
  : outcome json :=
  match read_aliases jsonData with
  | Thrown e => Thrown e
  | Returned (Some (JArr aliases)) =>
      let pushed :=
        push_result (filter (fun name => strict_neq_string name newName) aliases)
                    (JStr oldName) in
      match assign_aliases jsonData (JNum (inject_Z pushed)) with
      | Thrown e => Thrown e
      | Returned jsonData => cleanup_empty_aliases jsonData
      end
  | Returned _ => assign_aliases jsonData (JArr [JStr oldName])
  end.

(** ** The working tree and the version-control collaborator *)

Inductive git_op :=
| GitMv (src dst : jsstring)
| GitAdd (path : jsstring).

(** The world the workflow acts on: the files by path, the git commands
    that were carried out, the lines written to the console. *)
Record World := {
  files : gmap jsstring jsstring;
  git_log : list git_op;
  console : list jsstring
}.

(** Code with effects: it transforms the world and returns or throws; a
    throw keeps the world as it was left. *)
Definition M (A : Type) : Type := World -> World * outcome A.

Definition ret {A} (a : A) : M A := fun w => (w, Returned a).

Definition throw {A} (e : exn) : M A := fun w => (w, Thrown e).

Definition bind {A B} (m : M A) (k : A -> M B) : M B :=
  fun w =>
    match m w with
    | (w', Returned a) => k a w'
    | (w', Thrown e) => (w', Thrown e)
    end.

Notation "'let!' x ':=' m 'in' k" := (bind m (fun x => k))
  (at level 10, x name, m at level 100, k at level 200).
Notation "m ';;' k" := (bind m (fun _ => k))
  (at level 100, k at level 200, right associativity).

Definition lift {A} (o : outcome A) : M A := fun w => (w, o).

(** The local [fileExists]: [fs.access] succeeded or not; it never throws. *)
Definition fileExists (filePath : jsstring) : M bool :=
  fun w => (w, Returned (bool_decide (is_Some (files w !! filePath)))).

(** [fs.readFileSync(path, 'utf8')]. *)
Definition readFileSync (path : jsstring) : M jsstring :=
  fun w =>
    match files w !! path with
    | Some text => (w, Returned text)
    | None => (w, Thrown (SystemError "ENOENT" path))
    end.

(** [fs.writeFileSync(path, data)]. *)
Definition writeFileSync (path data : jsstring) : M unit :=
  fun w =>
    ({| files := <[path := data]> (files w);
        git_log := git_log w;
        console := console w |}, Returned tt).

(** [git.mv(src, dst)]: git moves an existing file to a free destination
    and records the move; otherwise the command fails. *)
Definition git_mv (src dst : jsstring) : M unit :=
  fun w =>
    match files w !! src, files w !! dst with
    | Some text, None =>
        ({| files := <[dst := text]> (delete src (files w));
            git_log := git_log w ++ [GitMv src dst];
            console := console w |}, Returned tt)
    | _, _ => (w, Thrown (GitError "mv"))
    end.

(** [git.add(path)]: stages the current content of an existing file. *)
Definition git_add (path : jsstring) : M unit :=
  fun w =>
    match files w !! path with
    | Some _ =>
        ({| files := files w;
            git_log := git_log w ++ [GitAdd path];
            console := console w |}, Returned tt)
    | None => (w, Thrown (GitError "add"))
    end.

Definition console_log (line : jsstring) : M unit :=
  fun w =>
    ({| files := files w;
        git_log := git_log w;
        console := console w ++ [line] |}, Returned tt).

(** ** The rename workflow *)

(** The template literals of [renameIcon]. *)
Definition svg_path (ICONS_DIR name : jsstring) : jsstring :=
  ICONS_DIR ++ js "/" ++ name ++ js ".svg".

Definition json_path (ICONS_DIR name : jsstring) : jsstring :=
  ICONS_DIR ++ js "/" ++ name ++ js ".json".

Definition msg_icon_exists (newName : jsstring) : jsstring :=
  js "ERROR: Icon icons/" ++ newName ++ js ".svg already exists".

Definition msg_metadata_exists (newName : jsstring) : jsstring :=
  js "ERROR: Metadata file icons/" ++ newName ++ js ".json already exists".

Definition msg_icon_missing (oldName : jsstring) : jsstring :=
  js "ERROR: Icon icons/" ++ oldName ++ js ".svg doesn't exist".

Definition msg_metadata_missing (oldName : jsstring) : jsstring :=
  js "ERROR: Metadata file icons/" ++ oldName ++ js ".json doesn't exist".

(** The advisory lines written when [logInfo] is set. *)
Definition next_steps (oldName newName : jsstring) : M unit :=
  console_log (js "SUCCESS: Next steps:");;
  console_log (js "git checkout -b rename/" ++ oldName ++ js "-to-" ++ newName ++ js ";");;
  console_log (js "git commit -m 'Renamed " ++ oldName ++ js " to " ++ newName ++ js "';");;
  console_log (js "gh pr create --title 'Renamed " ++ oldName ++ js " to " ++ newName ++ js "';");;
  console_log (js "git checkout main;").

(** [renameIcon(ICONS_DIR, oldName, newName, logInfo = true)]. *)
Definition renameIcon `{JSON} (ICONS_DIR oldName newName : jsstring)
    (logInfo : option bool) : M unit :=
  let logInfo := default true logInfo in
  let! newSvg := fileExists (svg_path ICONS_DIR newName) in
  (if newSvg then throw (Error (msg_icon_exists newName)) else ret tt);;
  let! newJson := fileExists (json_path ICONS_DIR newName) in
  (if newJson then throw (Error (msg_metadata_exists newName)) else ret tt);;
  let! oldSvg := fileExists (svg_path ICONS_DIR oldName) in
  (if negb oldSvg then throw (Error (msg_icon_missing oldName)) else ret tt);;
  let! oldJson := fileExists (json_path ICONS_DIR oldName) in
  (if negb oldJson then throw (Error (msg_metadata_missing oldName)) else ret tt);;
  git_mv (svg_path ICONS_DIR oldName) (svg_path ICONS_DIR newName);;
  git_mv (json_path ICONS_DIR oldName) (json_path ICONS_DIR newName);;
  let! text := readFileSync (json_path ICONS_DIR newName) in
  let! jsonData :=
    match JSON_parse text with
    | Some v => ret v
    | None => throw SyntaxError
    end in
  let! jsonData := lift (migrate_aliases jsonData oldName newName) in
  writeFileSync (json_path ICONS_DIR newName) (JSON_stringify jsonData 2);;
  git_add (json_path ICONS_DIR newName);;
  (if logInfo then next_steps oldName newName else ret tt).

(** ** [readFile]

    [(path) => fs.readFileSync(path.resolve(__dirname, '../', path), 'utf-8')]
    is evaluated in the scope of the module: the parameter, then the
    bindings of the module, then the global object. *)

Inductive value :=
| VUndefined
| VString (s : jsstring)
| VModule (specifier : string)       (* the default export of an imported module *)
| VFunction (name : string).         (* a function of the runtime or of a module *)

(** What the module binds at its top level: its imports and its own
    declarations. *)
Definition module_scope : list (string * value) :=
  [("fs", VModule "fs"); ("path", VModule "path");
   ("fileURLToPath", VFunction "url.fileURLToPath");
   ("simpleGit", VFunction "simple-git.default");
   ("promisify", VFunction "util.promisify");
   ("toCamelCase", VFunction "toCamelCase");
   ("toPascalCase", VFunction "toPascalCase");
   ("toKebabCase", VFunction "toKebabCase");
   ("resetFile", VFunction "resetFile");
   ("readFile", VFunction "readFile");
   ("appendFile", VFunction "appendFile");
   ("writeFile", VFunction "writeFile");
   ("writeFileIfNotExists", VFunction "writeFileIfNotExists");
   ("readAllMetadata", VFunction "readAllMetadata");
   ("readMetadata", VFunction "readMetadata");
   ("readSvgDirectory", VFunction "readSvgDirectory");
   ("readSvg", VFunction "readSvg");
   ("writeSvgFile", VFunction "writeSvgFile");
   ("hash", VFunction "hash");
   ("generateHashedKey", VFunction "generateHashedKey");
   ("hasDuplicatedChildren", VFunction "hasDuplicatedChildren");
   ("mergeArrays", VFunction "mergeArrays");
   ("getCurrentDirPath", VFunction "getCurrentDirPath");
   ("shuffle", VFunction "shuffle");
   ("minifySvg", VFunction "minifySvg");
   ("renameIcon", VFunction "renameIcon")].

Fixpoint assoc (x : string) (bindings : list (string * value)) : option value :=
  match bindings with
  | [] => None
  | (y, v) :: rest => if bool_decide (y = x) then Some v else assoc x rest
  end.

(** Resolution of an identifier inside the body of [readFile]; an unbound
    identifier is a ReferenceError. *)
Definition resolve_identifier (globals : gmap string value)
    (parameters : list (string * value)) (x : string) : outcome value :=
  match assoc x parameters with
  | Some v => Returned v
  | None =>
      match assoc x module_scope with
      | Some v => Returned v
      | None =>
          match globals !! x with
          | Some v => Returned v
          | None => Thrown (ReferenceError x)
          end
      end
  end.

(** [base.property]: a module exports its functions, a string has none of
    the names used here, [undefined] has no properties. *)
Definition get_member (base : value) (property : string) : outcome value :=
  match base with
  | VUndefined => Thrown TypeError
  | VString _ => Returned VUndefined
  | VModule specifier => Returned (VFunction (specifier +:+ "." +:+ property))
  | VFunction _ => Returned VUndefined
  end.

Section ReadFile.

(** The functions of the runtime and of the imported modules
    ([fs.readFileSync], [path.resolve], ...) acting on the world. *)
Variable builtin : string -> list value -> World -> outcome value.

(** [f(args)]: calling what is not a function is a TypeError. *)
Definition call (f : value) (args : list value) (w : World) : outcome value :=
  match f with
  | VFunction name => builtin name args w
  | _ => Thrown TypeError
  end.

Definition obind {A B} (o : outcome A) (k : A -> outcome B) : outcome B :=
  match o with
  | Returned a => k a
  | Thrown e => Thrown e
  end.

(** The callee [fs.readFileSync] is evaluated first, then its arguments
    from left to right; in the inner call the callee [path.resolve], then
    [__dirname], ['../'] and [path]; a call happens once its arguments
    are evaluated. *)
Definition readFile (globals : gmap string value) (path : jsstring) (w : World)
  : outcome value :=
  let resolve_id := resolve_identifier globals [("path", VString path)] in
  obind (resolve_id "fs") (fun fs_ =>
  obind (get_member fs_ "readFileSync") (fun fs_readFileSync =>
  obind (resolve_id "path") (fun path_ =>
  obind (get_member path_ "resolve") (fun path_resolve =>
  obind (resolve_id "__dirname") (fun dirname =>
  obind (Returned (VString (js "../"))) (fun up =>
  obind (resolve_id "path") (fun path_arg =>
  obind (call path_resolve [dirname; up; path_arg] w) (fun resolved =>
  call fs_readFileSync [resolved; VString (js "utf-8")] w)))))))).

End ReadFile.

(** ** Global replacement *)

(** [string.replace(/pattern/g, replacement)] for a pattern whose matches
    are not empty: the pattern is tried at each position from left to
    right; a match is replaced and the search goes on after it, a position
    without match keeps its character.  [match_at at_start s] is the match
    of the pattern at the head of [s], as the replacement and the rest of
    the string, [at_start] telling whether [s] is the whole string. *)
Fixpoint replace_all (match_at : bool -> jsstring -> option (jsstring * jsstring))
    (fuel : nat) (at_start : bool) (s : jsstring) : jsstring :=
  match fuel, s with
  | S fuel', c :: rest =>
      match match_at at_start s with
      | Some (replacement, rest') => replacement ++ replace_all match_at fuel' false rest'
      | None => c :: replace_all match_at fuel' false rest
      end
  | _, _ => []
  end.

(** Each turn consumes a character: the length of the string is fuel
    enough. *)
Definition replace (match_at : bool -> jsstring -> option (jsstring * jsstring))
    (s : jsstring) : jsstring :=
  replace_all match_at (length s) true s.

(** ** Character classes *)

Definition is_upper (c : Z) : bool := (65 <=? c) && (c <=? 90).          (* [A-Z] *)
Definition is_lower (c : Z) : bool := (97 <=? c) && (c <=? 122).         (* [a-z] *)
Definition is_digit (c : Z) : bool := (48 <=? c) && (c <=? 57).          (* [0-9] *)

(** [\w]. *)
Definition is_word (c : Z) : bool :=
  is_upper c || is_lower c || is_digit c || (c =? 95).

(** [\s]: the white space and the line terminators of ECMAScript. *)
Definition is_space (c : Z) : bool :=
  ((9 <=? c) && (c <=? 13)) || (c =? 32) || (c =? 160) || (c =? 5760)
  || ((8192 <=? c) && (c <=? 8202)) || (c =? 8232) || (c =? 8233)
  || (c =? 8239) || (c =? 8287) || (c =? 12288) || (c =? 65279).

(** What [.] does not match: the line terminators. *)
Definition is_line_terminator (c : Z) : bool :=
  (c =? 10) || (c =? 13) || (c =? 8232) || (c =? 8233).

(** The class [[\s-_]]: white space, the hyphen and the underscore. *)
Definition is_separator (c : Z) : bool := is_space c || (c =? 45) || (c =? 95).

Definition is_ascii (c : Z) : bool := (0 <=? c) && (c <? 128).

(** Case mapping of an ASCII character. *)
Definition lower_unit (c : Z) : Z := if is_upper c then c + 32 else c.
Definition upper_unit (c : Z) : Z := if is_lower c then c - 32 else c.

(** ** Names: camel, Pascal and kebab case *)

(** [[\s-_]+(\w)] at the head of [s]: the captured character and what
    follows the match.  The run of separators is made as long as possible
    first, then shortened until a word character follows it. *)
Fixpoint separators_then_word (s : jsstring) : option (Z * jsstring) :=
  match s with
  | [] => None
  | c :: rest =>
      if is_separator c then
        match separators_then_word rest with
        | Some m => Some m
        | None =>
            match rest with
            | w :: rest' => if is_word w then Some (w, rest') else None
            | [] => None
            end
        end
      else None
  end.

(** [/^([A-Z])|[\s-_]+(\w)/] with the replacement
    [(match, p1, p2) => p2 ? p2.toUpperCase() : p1.toLowerCase()]: the
    captured characters are ASCII. *)
Definition camel_match (at_start : bool) (s : jsstring) : option (jsstring * jsstring) :=
  match s with
  | [] => None
  | c :: rest =>
      if at_start && is_upper c then Some ([lower_unit c], rest)
      else
        match separators_then_word s with
        | Some (w, rest') => Some ([upper_unit w], rest')
        | None => None
        end
  end.

Definition toCamelCase (string : jsstring) : jsstring := replace camel_match string.

(** [/([a-z0-9])([A-Z])/] with the replacement ['$1-$2']. *)
Definition kebab_match (at_start : bool) (s : jsstring) : option (jsstring * jsstring) :=
  match s with
  | c :: d :: rest =>
      if (is_lower c || is_digit c) && is_upper d then Some ([c; 45; d], rest) else None
  | _ => None
  end.

Section Case.

(** [String.prototype.toUpperCase] and [toLowerCase], the case mappings of
    the runtime. *)
Variable toUpperCase toLowerCase : jsstring -> jsstring.

(** [camelCase.charAt(0).toUpperCase() + camelCase.slice(1)]. *)
Definition toPascalCase (string : jsstring) : jsstring :=
  let camelCase := toCamelCase string in
  toUpperCase (take 1 camelCase) ++ drop 1 camelCase.

Definition toKebabCase (string : jsstring) : jsstring :=
  toLowerCase (replace kebab_match string).

End Case.

(** A name in kebab case is made of words joined by hyphens, in camel case
    of words of which all but the first are capitalised, in Pascal case of
    capitalised words. *)
Definition capitalise (word : jsstring) : jsstring :=
  match word with
  | [] => []
  | c :: rest => upper_unit c :: rest
  end.

Definition kebab_name (words : list jsstring) : jsstring :=
  match words with
  | [] => []
  | first :: others => first ++ concat (map (fun word => 45 :: word) others)
  end.

Definition camel_name (words : list jsstring) : jsstring :=
  match words with
  | [] => []
  | first :: others => first ++ concat (map capitalise others)
  end.

Definition pascal_name (words : list jsstring) : jsstring :=
  concat (map capitalise words).

(** ** [minifySvg] *)

Fixpoint drop_while (p : Z -> bool) (s : jsstring) : jsstring :=
  match s with
  | [] => []
  | c :: rest => if p c then drop_while p rest else s
  end.

(** [string.trim()]. *)
Definition trim (s : jsstring) : jsstring :=
  rev (drop_while is_space (rev (drop_while is_space s))).

(** The class [[\r\n ]]. *)
Definition is_gap (c : Z) : bool := (c =? 13) || (c =? 10) || (c =? 32).

(** [[\r\n ]+<] at the head of [s]: what follows the match. *)
Fixpoint gap_then_lt (s : jsstring) : option jsstring :=
  match s with
  | [] => None
  | c :: rest =>
      if is_gap c then
        match gap_then_lt rest with
        | Some rest' => Some rest'
        | None =>
            match rest with
            | d :: rest' => if d =? 60 then Some rest' else None
            | [] => None
            end
        end
      else None
  end.

(** [/>[\r\n ]+</] with the replacement ['><']. *)
Definition gap_match (at_start : bool) (s : jsstring) : option (jsstring * jsstring) :=
  match s with
  | [] => None
  | c :: rest =>
      if c =? 62 then
        match gap_then_lt rest with
        | Some rest' => Some ([62; 60], rest')
        | None => None
        end
      else None
  end.

(** [.*?>] at the head of [s]: the characters up to the first [>], none of
    them a line terminator, and what follows. *)
Fixpoint tag_end (s : jsstring) : option (jsstring * jsstring) :=
  match s with
  | [] => None
  | c :: rest =>
      if c =? 62 then Some ([c], rest)
      else if is_line_terminator c then None
      else
        match tag_end rest with
        | Some (body, rest') => Some (c :: body, rest')
        | None => None
        end
  end.

(** [/(<.*?>)|\s+/] with the replacement [(m, $1) => $1 || ' ']: a tag
    stands for itself, a run of white space becomes one blank. *)
Definition collapse_match (at_start : bool) (s : jsstring)
  : option (jsstring * jsstring) :=
  match s with
  | [] => None
  | c :: rest =>
      if c =? 60 then
        match tag_end rest with
        | Some (body, rest') => Some (c :: body, rest')
        | None => None
        end
      else if is_space c then Some ([32], drop_while is_space rest)
      else None
  end.

(** [minifySvg(string)]; the empty string is falsy. *)
Definition minifySvg (string : jsstring) : jsstring :=
  match string with
  | [] => []
  | _ => trim (replace collapse_match (replace gap_match string))
  end.
(** ** File helpers *)

(** [fs.existsSync(path)]. *)
Definition existsSync (path : jsstring) : M bool :=
  fun w => (w, Returned (bool_decide (is_Some (files w !! path)))).

(** [fs.appendFileSync(path, data, 'utf-8')]: a missing file is created. *)
Definition appendFileSync (path data : jsstring) : M unit :=
  fun w =>
    ({| files := <[path := default [] (files w !! path) ++ data]> (files w);
        git_log := git_log w;
        console := console w |}, Returned tt).

(** A string without lone surrogate: the strings that the UTF-8 encoding of
    a file gives back as they were written. *)
Fixpoint well_formed (s : jsstring) : bool :=
  match s with
  | [] => true
  | c :: rest =>
      if is_high_surrogate c then
        match rest with
        | d :: rest' => is_low_surrogate d && well_formed rest'
        | [] => false
        end
      else negb (is_low_surrogate c) && well_formed rest
  end.

Section Files.

(** [path.join(directory, fileName)] of the runtime. *)
Variable path_join : jsstring -> jsstring -> jsstring.

Definition resetFile (fileName outputDirectory : jsstring) : M unit :=
  writeFileSync (path_join outputDirectory fileName) [].

Definition appendFile (content fileName outputDirectory : jsstring) : M unit :=
  appendFileSync (path_join outputDirectory fileName) content.

Definition writeFile (content fileName outputDirectory : jsstring) : M unit :=
  writeFileSync (path_join outputDirectory fileName) content.

Definition writeFileIfNotExists (content fileName outputDirectory : jsstring) : M unit :=
  let! present := existsSync (path_join outputDirectory fileName) in
  if negb present then writeFile content fileName outputDirectory else ret tt.

Definition readSvg (fileName directory : jsstring) : M jsstring :=
  readFileSync (path_join directory fileName).

Definition writeSvgFile (fileName outputDirectory content : jsstring) : M unit :=
  writeFileSync (path_join outputDirectory fileName) content.

End Files.

(** An object used as a map, as the accumulator of [readAllMetadata] is:
    its own properties, and its prototype, which is [Object.prototype] for
    an object literal, [null], or a value that [JSON.parse] returned. *)
Inductive prototype :=
| ObjectPrototype
| NullPrototype
| ValuePrototype (v : json).

Record object := {
  own : gmap jsstring json;
  proto : prototype
}.

(** [{}]. *)
Definition empty_object : object := {| own := ∅; proto := ObjectPrototype |}.

(** Whether the name [__proto__], looked up from this prototype on, is
    the accessor of [Object.prototype]: a null prototype ends the chain
    before it, and a parsed object with a property of that name hides
    it. *)
Definition reaches_proto_accessor (p : prototype) : bool :=
  match p with
  | ObjectPrototype => true
  | NullPrototype => false
  | ValuePrototype (JObj fields) =>
      match get_property (js "__proto__") fields with
      | Some _ => false
      | None => true
      end
  | ValuePrototype _ => true
  end.

(** The setter of that accessor: an object or [null] becomes the
    prototype, any other value is ignored. *)
Definition set_prototype (v : json) (p : prototype) : prototype :=
  match v with
  | JNull => NullPrototype
  | JObj _ | JArr _ => ValuePrototype v
  | _ => p
  end.

(** [acc[key] = v].  The value becomes an own property, but for the key
    [__proto__] when it is not an own property yet and resolves to the
    accessor: then the setter is called and no property is added. *)
Definition assign (acc : object) (key : jsstring) (v : json) : object :=
  if bool_decide (key = js "__proto__")
     && bool_decide (own acc !! key = None)
     && reaches_proto_accessor (proto acc)
  then {| own := own acc; proto := set_prototype v (proto acc) |}
  else {| own := <[key := v]> (own acc); proto := proto acc |}.

Section Metadata.

(** [path.join], [path.extname] and [path.basename(path, suffix)] of the
    runtime, and [fs.readdirSync(directory)], which reads the world. *)
Variable path_join : jsstring -> jsstring -> jsstring.
Variable path_extname : jsstring -> jsstring.
Variable path_basename : jsstring -> jsstring -> jsstring.
Variable readdirSync : jsstring -> World -> outcome (list jsstring).

Context `{JSON}.

(** [JSON.parse(fs.readFileSync(path.join(directory, fileName), 'utf-8'))]. *)
Definition readMetadata (fileName directory : jsstring) : M json :=
  let! text := readFileSync (path_join directory fileName) in
  match JSON_parse text with
  | Some v => ret v
  | None => throw SyntaxError
  end.

(** The [reduce] of [readAllMetadata]:
    [acc[path.basename(fileName, '.json')] = readMetadata(fileName, directory)]
    for each file name in turn. *)
Fixpoint reduce_metadata (directory : jsstring) (fileNames : list jsstring)
    (acc : object) : M object :=
  match fileNames with
  | [] => ret acc
  | fileName :: rest =>
      let! metadata := readMetadata fileName directory in
      reduce_metadata directory rest
        (assign acc (path_basename fileName (js ".json")) metadata)
  end.

Definition readAllMetadata (directory : jsstring) : M object :=
  let! entries := (fun w => (w, readdirSync directory w)) in
  reduce_metadata directory
    (filter (fun file => path_extname file = js ".json") entries) empty_object.

(** [readSvgDirectory(directory, fileExtension = '.svg')]. *)
Definition readSvgDirectory (directory : jsstring) (fileExtension : option jsstring)
  : M (list jsstring) :=
  let fileExtension := default (js ".svg") fileExtension in
  let! entries := (fun w => (w, readdirSync directory w)) in
  ret (filter (fun file => path_extname file = fileExtension) entries).

End Metadata.

(** ** Arrays *)

Section Arrays.

Context {A : Type}.

(** [x === y] of the runtime on the values that the arrays hold. *)
Variable strict_equals : A -> A -> bool.

(** [array.indexOf(x)]: the first index whose element is [===] to [x], or
    -1; a value that is not [===] to itself is found nowhere. *)
Definition indexOf (x : A) (l : list A) : Z :=
  findIndex (fun y => strict_equals y x) l.

(** [array.filter((x, p) => f(x, p))]. *)
Fixpoint filter_from (f : A -> Z -> bool) (l : list A) (p : Z) : list A :=
  match l with
  | [] => []
  | x :: l' => if f x p then x :: filter_from f l' (p + 1) else filter_from f l' (p + 1)
  end.

Definition filter_indexed (f : A -> Z -> bool) (l : list A) : list A :=
  filter_from f l 0.

(** [mergeArrays(a, b)]: the callback of [filter] reads [a] after the
    concatenation has been stored in it. *)
Definition mergeArrays (a b : list A) : list A :=
  let a := a ++ b in
  let a := filter_indexed (fun i p => indexOf i a =? p) a in
  a.

(** An array whose values are each [===] to itself and to no other value
    of the array. *)
Definition distinct (l : list A) : Prop :=
  forall (i j : nat) (x y : A),
    l !! i = Some x -> l !! j = Some y -> strict_equals x y = true <-> i = j.

(** [[array[i], array[j]] = [array[j], array[i]]], for two indices of the
    array, as the indices of [shuffle] are. *)
Definition swap (array : list A) (i j : nat) : list A :=
  match array !! i, array !! j with
  | Some x, Some y => <[j := x]> (<[i := y]> array)
  | _, _ => array
  end.

(** The loop of [shuffle], [for (let i = array.length - 1; i > 0; i--)].
    [draw i] is the value of [Math.floor(Math.random() * (i + 1))] at the
    turn [i], one of [0], ..., [i]. *)
Fixpoint shuffle_loop (draw : forall i : nat, fin (S i)) (i : nat) (array : list A)
  : list A :=
  match i with
  | O => array
  | S i' => shuffle_loop draw i' (swap array i (fin_to_nat (draw i)))
  end.

Definition shuffle (draw : forall i : nat, fin (S i)) (array : list A) : list A :=
  shuffle_loop draw (length array - 1) array.

End Arrays.

(** The draws of a run of [shuffle] given as numbers: at the turn [i] the
    draw is [g i], kept within [0], ..., [i]. *)
Definition draws (g : nat -> nat) (i : nat) : fin (S i) :=
  nat_to_fin (proj2 (Nat.lt_succ_r (Nat.min (g i) i) i) (Nat.le_min_r (g i) i)).

(** ** Sample data of the examples *)

(** A [JSON] object for the examples.  It prints as [JSON.stringify] does
    (SerializeJSONProperty with a gap of [space] blanks) the values whose
    numbers are integers, and parses the documents of [sample_documents]
    from their printed form. *)
Definition sample_number (x : Q) : jsstring :=
  js (NilZero.string_of_int (Z.to_int (Qnum x))).

Fixpoint sample_print (gap indent : jsstring) (v : json) : jsstring :=
  let inner := indent ++ gap in
  let wrap (opening closing : jsstring) (parts : list jsstring) :=
    match parts, gap with
    | [], _ => opening ++ closing
    | _, [] => opening ++ join (js ",") parts ++ closing
    | _, _ =>
        opening ++ [10] ++ inner ++ join (js "," ++ [10] ++ inner) parts
        ++ [10] ++ indent ++ closing
    end in
  match v with
  | JNull => js "null"
  | JBool b => if b then js "true" else js "false"
  | JNum x => sample_number x
  | JStr s => QuoteJSONString s
  | JArr items => wrap (js "[") (js "]") (map (sample_print gap inner) items)
  | JObj fields =>
      wrap (js "{") (js "}")
        (map (fun kv =>
                match kv with
                | (k, v') =>
                    QuoteJSONString k
                    ++ (match gap with [] => js ":" | _ => js ": " end)
                    ++ sample_print gap inner v'
                end) fields)
  end.

Definition sample_stringify (v : json) (space : Z) : jsstring :=
  sample_print (replicate (Z.to_nat (Z.min 10 space)) 32) [] v.

(** [home.json] before any rename, and [house.json] once [home] has been
    renamed to [house]. *)
Definition doc_home : json :=
  JObj [(js "tags", JArr [JStr (js "building")])].

Definition doc_house : json :=
  JObj [(js "tags", JArr [JStr (js "building")]);
        (js "aliases", JArr [JStr (js "home")])].

Definition sample_documents : list json := [doc_home; doc_house].

Definition sample_parse (text : jsstring) : option json :=
  List.find (fun v => bool_decide (sample_stringify v 2 = text)) sample_documents.

Definition sample_JSON : JSON :=
  {| JSON_parse := sample_parse; JSON_stringify := sample_stringify |}.

Definition svg_text : jsstring := js "<svg></svg>".

(** A tree with the icon [home] only, and one with the icon [house] only. *)
Definition world_home : World :=
  {| files := {[ js "icons/home.svg" := svg_text;
                 js "icons/home.json" := sample_stringify doc_home 2 ]};
     git_log := [];
     console := [] |}.

Definition world_house : World :=
  {| files := {[ js "icons/house.svg" := svg_text;
                 js "icons/house.json" := sample_stringify doc_house 2 ]};
     git_log := [];
     console := [] |}.

(** A tree where the icons [a] and [b] both exist. *)
Definition world_a_b : World :=
  {| files := {[ js "icons/a.svg" := svg_text;
                 js "icons/a.json" := sample_stringify doc_home 2;
                 js "icons/b.svg" := svg_text;
                 js "icons/b.json" := sample_stringify doc_home 2 ]};
     git_log := [];
     console := [] |}.

(** Two entities with different names and attributes and one fingerprint. *)
Definition entity_path : Entity :=
  {| name := js "path"; attributes := [(js "cx", js "198")] |}.

Definition entity_rect : Entity :=
  {| name := js "rect"; attributes := [(js "r", js "105")] |}.

(** A [JSON] object that parses the documents of a table from their printed
    form, as [sample_JSON] does for its own. *)
Definition table_JSON (documents : list json) : JSON :=
  {| JSON_parse := fun text =>
       List.find (fun v => bool_decide (sample_stringify v 2 = text)) documents;
     JSON_stringify := sample_stringify |}.

(** A tree where the metadata of [home] is the text [text]. *)
Definition world_with_metadata (text : jsstring) : World :=
  {| files := {[ js "icons/home.svg" := svg_text; js "icons/home.json" := text ]};
     git_log := [];
     console := [] |}.

(** A directory with the metadata of [a] and a file [__proto__.json]. *)
Definition world_proto : World :=
  {| files := {[ js "icons/a.json" := sample_stringify doc_home 2;
                 js "icons/__proto__.json" := sample_stringify doc_house 2 ]};
     git_log := [];
     console := [] |}.

(** The case mappings of the runtime on ASCII strings. *)
Definition ascii_toLowerCase (s : jsstring) : jsstring := lower_unit <$> s.
Definition ascii_toUpperCase (s : jsstring) : jsstring := upper_unit <$> s.

(** [path.join] on a directory and a file name that need no
    normalisation. *)
Definition plain_join (directory fileName : jsstring) : jsstring :=
  directory ++ js "/" ++ fileName.

(** [path.extname] and [path.basename] on plain file names (no directory
    part), and the listing of a directory with the given entries. *)
Fixpoint from_last_dot (s : jsstring) : option jsstring :=
  match s with
  | [] => None
  | c :: rest =>
      match from_last_dot rest with
      | Some e => Some e
      | None => if c =? 46 then Some s else None
      end
  end.

Definition plain_extname (file : jsstring) : jsstring :=
  match file with
  | [] => []
  | _ :: rest => default [] (from_last_dot rest)
  end.

Definition plain_basename (file suffix : jsstring) : jsstring :=
  if bool_decide (suffix <> file /\ suffix `suffix_of` file)
  then take (length file - length suffix) file
  else file.

Definition listing (entries : list jsstring) : jsstring -> World -> outcome (list jsstring) :=
  fun _ _ => Returned entries.

(** * Properties *)

(** ** Numbers *)

Section Numbers.

Lemma lxor_mod_pow2 (a b n : Z) :
  0 <= n -> Z.lxor a b mod 2 ^ n = Z.lxor (a mod 2 ^ n) (b mod 2 ^ n).
Proof.
  intros Hn. apply Z.bits_inj'. intros m Hm.
  rewrite Z.lxor_spec.
  destruct (Z.lt_ge_cases m n) as [Hlt | Hge].
  - rewrite !Z.mod_pow2_bits_low by lia. apply Z.lxor_spec.
  - rewrite !Z.mod_pow2_bits_high by lia. reflexivity.
Qed.

Lemma to_int32_mod (x : Z) : to_int32 x mod 2 ^ 32 = x mod 2 ^ 32.
Proof.
  unfold to_int32.
  rewrite Zminus_mod, Zmod_mod, <- Zminus_mod.
  f_equal. lia.
Qed.

Lemma to_int32_range (x : Z) : - 2 ^ 31 <= to_int32 x < 2 ^ 31.
Proof.
  unfold to_int32.
  pose proof (Z.mod_pos_bound (x + 2 ^ 31) (2 ^ 32)). lia.
Qed.

Lemma to_int32_small (x : Z) : - 2 ^ 31 <= x < 2 ^ 31 -> to_int32 x = x.
Proof.
  intros H. unfold to_int32. rewrite Z.mod_small; lia.
Qed.

Lemma int32_iff_sign (z : Z) :
  - 2 ^ 31 <= z < 2 ^ 31 <-> Z.shiftr z 31 = 0 \/ Z.shiftr z 31 = -1.
Proof.
  rewrite Z.shiftr_div_pow2 by lia.
  split; intros H; Z.div_mod_to_equations; lia.
Qed.

Lemma ToInt32_range (x : number) : - 2 ^ 31 <= ToInt32 x < 2 ^ 31.
Proof. destruct x; simpl; [lia | lia | apply to_int32_range]. Qed.

Lemma ToUint32_range (x : number) : 0 <= ToUint32 x < 2 ^ 32.
Proof.
  destruct x; simpl; [lia | lia |]. unfold to_uint32. apply Z.mod_pos_bound. lia.
Qed.

Lemma ToInt32_int (z : Z) : ToInt32 (int z) = to_int32 z.
Proof. unfold ToInt32, int, truncate. simpl. by rewrite Z.mul_1_r. Qed.

Lemma ToUint32_int (z : Z) : ToUint32 (int z) = z mod 2 ^ 32.
Proof. unfold ToUint32, int, truncate, to_uint32. simpl. by rewrite Z.mul_1_r. Qed.

(** ToInt32 of a number that is an integer is the wrap of that integer. *)
Lemma ToInt32_integer (x : number) (z : Z) :
  integer_value x = Some z -> ToInt32 x = to_int32 z.
Proof.
  destruct x as [| negative | m e]; simpl; try discriminate.
  unfold truncate. destruct (0 <=? e) eqn:He; [by intros [= <-]|].
  destruct (m mod 2 ^ (- e) =? 0) eqn:Hm; [|discriminate].
  intros [= <-]. f_equal.
  apply Z.eqb_eq in Hm. apply Z.leb_gt in He.
  assert (Hpos : 0 < 2 ^ (- e)) by (apply Z.pow_pos_nonneg; lia).
  rewrite (Z.div_mod m (2 ^ (- e))) at 1 by lia.
  rewrite Hm, Z.add_0_r, Z.mul_comm. apply Z.quot_mul. lia.
Qed.

(** The xor of two int32 is an int32: [js_xor] needs no further wrap. *)
Lemma lxor_int32 (a b : Z) :
  - 2 ^ 31 <= a < 2 ^ 31 -> - 2 ^ 31 <= b < 2 ^ 31 ->
  - 2 ^ 31 <= Z.lxor a b < 2 ^ 31.
Proof.
  intros Ha Hb.
  apply int32_iff_sign in Ha, Hb.
  apply int32_iff_sign. rewrite Z.shiftr_lxor.
  destruct Ha as [-> | ->], Hb as [-> | ->]; simpl; auto.
Qed.

Lemma js_xor_range (a b : number) :
  exists z : Z, js_xor a b = int z /\ - 2 ^ 31 <= z < 2 ^ 31.
Proof.
  eexists. split; [reflexivity|].
  apply lxor_int32; apply ToInt32_range.
Qed.

(** A product of integers below [2 ^ 53] in magnitude is exact. *)
Lemma js_mul_exact (a b : Z) :
  Z.abs (a * b) < 2 ^ 53 -> js_mul (int a) (int b) = int (a * b).
Proof.
  intros Hsafe. unfold js_mul, int, round_double.
  set (p := a * b) in *. cbv zeta. change (0 + 0) with 0.
  assert (Hbits : Z.log2 (Z.abs p) < 53).
  { destruct (Z.eq_dec p 0) as [-> | Hp]; [simpl; lia|].
    apply Z.log2_lt_pow2; lia. }
  assert (Hk : (0 <? Z.max (Z.log2 (Z.abs p) + 1 - 53) (- 1074 - 0)) = false)
    by (apply Z.ltb_ge; lia).
  rewrite Hk.
  destruct (p =? 0) eqn:Hp; [apply Z.eqb_eq in Hp; by rewrite Hp|].
  assert (Hbig : (1024 <=? Z.log2 (Z.abs p) + 0) = false) by (apply Z.leb_gt; lia).
  by rewrite Hbig.
Qed.

End Numbers.

(** ** The hash *)

Section Hash.

Implicit Types (s : jsstring) (k z value c : Z) (seed : number) (i : nat).

(** One turn of the loop agrees with the plain step modulo [2 ^ 32]. *)
Lemma lxor_mix_mod (product value c : Z) :
  product mod 2 ^ 32 = (value * 33) mod 2 ^ 32 ->
  Z.lxor (to_int32 product) (to_int32 c) mod 2 ^ 32 = mix value c mod 2 ^ 32.
Proof.
  intros Heq. unfold mix.
  rewrite !lxor_mod_pow2, !to_int32_mod by lia.
  by rewrite Heq.
Qed.

(** Every product the loop forms after its first turn is exact, since [^]
    leaves an int32 and [33 * 2 ^ 31 < 2 ^ 53]. *)
Lemma js_mul_int32 z :
  - 2 ^ 31 <= z < 2 ^ 31 -> js_mul (int z) (int 33) = int (z * 33).
Proof. intros Hz. apply js_mul_exact. lia. Qed.

(** The loop run from index [i] on an int32 handles the characters [i-1],
    ..., [0] as the plain steps do. *)
Lemma hash_loop_fold s i z value :
  (i <= length s)%nat ->
  - 2 ^ 31 <= z < 2 ^ 31 ->
  z mod 2 ^ 32 = value mod 2 ^ 32 ->
  ToUint32 (hash_loop s i (int z)) = fold_left mix (rev (take i s)) value mod 2 ^ 32.
Proof.
  revert z value. induction i as [| i IH]; intros z value Hi Hz Heq.
  - rewrite take_0. cbn [hash_loop rev fold_left]. by rewrite ToUint32_int.
  - destruct (lookup_lt_is_Some_2 s i ltac:(lia)) as [c Hc].
    rewrite (take_S_r _ _ _ Hc), rev_app_distr.
    cbn [hash_loop rev fold_left app].
    unfold charCodeAt. rewrite Hc, js_mul_int32 by done.
    unfold js_xor. rewrite !ToInt32_int.
    apply IH; [lia | apply lxor_int32; apply to_int32_range |].
    apply lxor_mix_mod.
    by rewrite (Z.mul_mod z), (Z.mul_mod value), Heq by lia.
Qed.

(** The same from any integer seed whose product with 33 at the first turn
    is exact. *)
Lemma hash_loop_reference s k :
  (s <> [] -> integer_value (js_mul (int k) (int 33)) = Some (k * 33)) ->
  js_ushr0 (hash_loop s (length s) (int k)) = fold_left mix (rev s) k mod 2 ^ 32.
Proof.
  intros Hexact. unfold js_ushr0.
  destruct (length s) as [| n] eqn:Hlen.
  - apply nil_length_inv in Hlen. subst s. cbn [hash_loop rev fold_left].
    by rewrite ToUint32_int.
  - assert (Hs : s <> []) by (intros ->; discriminate).
    specialize (Hexact Hs).
    destruct (lookup_lt_is_Some_2 s n ltac:(lia)) as [c Hc].
    rewrite <- (firstn_all s) at 2. rewrite Hlen, (take_S_r _ _ _ Hc), rev_app_distr.
    cbn [hash_loop rev fold_left app]. unfold charCodeAt. rewrite Hc. unfold js_xor.
    rewrite (ToInt32_integer _ _ Hexact), ToInt32_int.
    apply hash_loop_fold; [lia | apply lxor_int32; apply to_int32_range |].
    by apply lxor_mix_mod.
Qed.

(** *** Base 36 *)

Lemma digit36_base36_char (d : Z) : 0 <= d < 36 -> base36_char (digit36 d) = true.
Proof. intros H. unfold base36_char, digit36. destruct (d <? 10) eqn:E; lia. Qed.

Lemma digit36_value_digit36 (d : Z) : 0 <= d < 36 -> digit36_value (digit36 d) = d.
Proof.
  intros H. unfold digit36_value, digit36.
  destruct (d <? 10) eqn:E.
  - destruct (48 + d <? 58) eqn:E'; lia.
  - destruct (87 + d <? 58) eqn:E'; lia.
Qed.

Lemma digit36_value_range (c : Z) :
  base36_char c = true -> 0 <= digit36_value c < 36.
Proof. unfold base36_char, digit36_value. destruct (c <? 58) eqn:E; lia. Qed.

Lemma digit36_value_inj (c c' : Z) :
  base36_char c = true -> base36_char c' = true ->
  digit36_value c = digit36_value c' -> c = c'.
Proof.
  unfold base36_char, digit36_value.
  destruct (c <? 58) eqn:E, (c' <? 58) eqn:E'; lia.
Qed.

Lemma digit36_value_zero (c : Z) :
  base36_char c = true -> digit36_value c = 0 -> c = 48.
Proof. unfold base36_char, digit36_value. destruct (c <? 58) eqn:E; lia. Qed.

Lemma digits36_chars fuel n acc :
  Forall (fun c => base36_char c = true) acc ->
  Forall (fun c => base36_char c = true) (digits36 fuel n acc).
Proof.
  revert n acc. induction fuel as [| fuel IH]; intros n acc Hacc; simpl; [done|].
  assert (Forall (fun c => base36_char c = true) (digit36 (n mod 36) :: acc)).
  { constructor; [|done]. apply digit36_base36_char, Z.mod_pos_bound. lia. }
  destruct (n / 36 =? 0); [done|]. by apply IH.
Qed.

Lemma digits36_length fuel n acc :
  (length acc <= length (digits36 fuel n acc) <= fuel + length acc)%nat.
Proof.
  revert n acc. induction fuel as [| fuel IH]; intros n acc; simpl; [lia|].
  destruct (n / 36 =? 0); simpl; [lia|].
  specialize (IH (n / 36) (digit36 (n mod 36) :: acc)). simpl in IH. lia.
Qed.

Lemma digits36_nonempty fuel n acc : digits36 (S fuel) n acc <> [].
Proof.
  simpl. destruct (n / 36 =? 0); [done|].
  pose proof (digits36_length fuel (n / 36) (digit36 (n mod 36) :: acc)) as H.
  intros E. rewrite E in H. simpl in H. lia.
Qed.

Lemma base36_value_app (a b : jsstring) :
  base36_value (a ++ b) = base36_value a * 36 ^ Z.of_nat (length b) + base36_value b.
Proof.
  unfold base36_value.
  rewrite fold_left_app.
  generalize (fold_left (fun v c => v * 36 + digit36_value c) a 0).
  induction b as [| c b IH]; intros v; simpl fold_left.
  - simpl. lia.
  - rewrite IH, (IH (0 * 36 + digit36_value c)).
    rewrite length_cons, Nat2Z.inj_succ, Z.pow_succ_r by lia. lia.
Qed.

(** With enough fuel the digits denote the number: nothing is cut. *)
Lemma digits36_value fuel n acc :
  0 <= n < 2 ^ Z.of_nat fuel -> (0 < fuel)%nat ->
  base36_value (digits36 fuel n acc)
  = n * 36 ^ Z.of_nat (length acc) + base36_value acc.
Proof.
  revert n acc. induction fuel as [| fuel IH]; intros n acc Hn Hf; [lia|].
  simpl digits36.
  assert (Hstep :
    base36_value (digit36 (n mod 36) :: acc)
    = n mod 36 * 36 ^ Z.of_nat (length acc) + base36_value acc).
  { change (digit36 (n mod 36) :: acc) with ([digit36 (n mod 36)] ++ acc).
    rewrite base36_value_app. unfold base36_value at 1. simpl fold_left.
    rewrite digit36_value_digit36 by (apply Z.mod_pos_bound; lia). lia. }
  destruct (n / 36 =? 0) eqn:E.
  - rewrite Hstep. apply Z.eqb_eq in E.
    rewrite (Z.div_mod n 36) at 2 by lia. rewrite E. lia.
  - apply Z.eqb_neq in E.
    assert (Hq : 0 <= n / 36 < 2 ^ Z.of_nat fuel).
    { rewrite Nat2Z.inj_succ, Z.pow_succ_r in Hn by lia.
      split; [apply Z.div_pos; lia|].
      apply Z.div_lt_upper_bound; lia. }
    destruct fuel as [| fuel'].
    { simpl in Hq. lia. }
    rewrite IH by (done || lia).
    rewrite Hstep, length_cons, Nat2Z.inj_succ, Z.pow_succ_r by lia.
    rewrite (Z.div_mod n 36) at 3 by lia. lia.
Qed.

(** [toString36] renders the number it is given. *)
Lemma toString36_value (n : Z) : 0 <= n -> base36_value (toString36 n) = n.
Proof.
  intros Hn. unfold toString36.
  rewrite digits36_value; [change (base36_value []) with 0; simpl length; lia| |lia].
  split; [done|].
  destruct (Z.eq_dec n 0) as [-> | Hnz]; [done|].
  rewrite Nat2Z.inj_succ, Z2Nat.id by apply Z.log2_nonneg.
  apply Z.log2_spec. lia.
Qed.

Lemma toString36_chars (n : Z) :
  Forall (fun c => base36_char c = true) (toString36 n).
Proof. apply digits36_chars. constructor. Qed.

Lemma toString36_nonempty (n : Z) : toString36 n <> [].
Proof. apply digits36_nonempty. Qed.

Lemma digits36_acc fuel n acc : digits36 fuel n acc = digits36 fuel n [] ++ acc.
Proof.
  revert n acc. induction fuel as [| fuel IH]; intros n acc; [done|]. simpl.
  destruct (n / 36 =? 0); [done|].
  rewrite (IH _ (_ :: acc)), (IH _ [_]). by rewrite <- app_assoc.
Qed.

(** Any fuel that suffices gives the same digits. *)
Lemma digits36_fuel fuel fuel' n acc :
  (0 < fuel)%nat -> (0 < fuel')%nat ->
  0 <= n < 2 ^ Z.of_nat fuel -> 0 <= n < 2 ^ Z.of_nat fuel' ->
  digits36 fuel n acc = digits36 fuel' n acc.
Proof.
  revert fuel' n acc.
  induction fuel as [| fuel IH]; intros fuel' n acc H0 H0' Hf Hf'; [lia|].
  destruct fuel' as [| fuel']; [lia|].
  simpl. destruct (n / 36 =? 0) eqn:E; [done|].
  apply Z.eqb_neq in E.
  rewrite !Nat2Z.inj_succ, !Z.pow_succ_r in * by lia.
  assert (Hq : 0 < n / 36) by (pose proof (Z.div_pos n 36); lia).
  assert (Hq1 : n / 36 < 2 ^ Z.of_nat fuel) by (apply Z.div_lt_upper_bound; lia).
  assert (Hq2 : n / 36 < 2 ^ Z.of_nat fuel') by (apply Z.div_lt_upper_bound; lia).
  apply IH; try lia.
  - destruct fuel; [simpl in Hq1; lia | lia].
  - destruct fuel'; [simpl in Hq2; lia | lia].
Qed.

Lemma toString36_small n : 0 <= n < 36 -> toString36 n = [digit36 n].
Proof.
  intros Hn. unfold toString36. simpl.
  rewrite Z.div_small, Z.mod_small by lia. reflexivity.
Qed.

Lemma toString36_step n :
  36 <= n -> toString36 n = toString36 (n / 36) ++ [digit36 (n mod 36)].
Proof.
  intros Hn. unfold toString36 at 1. simpl.
  assert (Hq : 0 < n / 36) by (apply Z.div_str_pos; lia).
  destruct (n / 36 =? 0) eqn:E; [lia|].
  rewrite digits36_acc. f_equal. unfold toString36.
  pose proof (Z.log2_nonneg n). pose proof (Z.log2_nonneg (n / 36)).
  assert (1 <= Z.log2 n) by (apply Z.log2_le_pow2; lia).
  apply digits36_fuel; [lia | lia | |].
  - rewrite Z2Nat.id by done. split; [lia|].
    apply Z.div_lt_upper_bound; [lia|].
    pose proof (Z.log2_spec n ltac:(lia)) as [_ Hlt].
    assert (1 <= Z.log2 n) by (apply Z.log2_le_pow2; lia).
    replace (Z.succ (Z.log2 n)) with (Z.log2 n + 1) in Hlt by lia.
    rewrite Z.pow_add_r in Hlt by lia. lia.
  - rewrite Nat2Z.inj_succ, Z2Nat.id by done. split; [lia|].
    apply Z.log2_spec. lia.
Qed.

(** *** Numerals *)

Lemma base36_value_cons c (digits : jsstring) :
  base36_value (c :: digits)
  = digit36_value c * 36 ^ Z.of_nat (length digits) + base36_value digits.
Proof.
  change (c :: digits) with ([c] ++ digits). rewrite base36_value_app.
  unfold base36_value at 1. simpl. lia.
Qed.

Lemma base36_value_bound (digits : jsstring) :
  Forall (fun c => base36_char c = true) digits ->
  0 <= base36_value digits < 36 ^ Z.of_nat (length digits).
Proof.
  induction 1 as [| c digits Hc _ IH]; [by compute|].
  rewrite base36_value_cons, length_cons, Nat2Z.inj_succ, Z.pow_succ_r by lia.
  pose proof (digit36_value_range c Hc). nia.
Qed.

(** Digits of the same number and of the same length are the same. *)
Lemma base36_value_inj (d1 d2 : jsstring) :
  Forall (fun c => base36_char c = true) d1 ->
  Forall (fun c => base36_char c = true) d2 ->
  length d1 = length d2 -> base36_value d1 = base36_value d2 -> d1 = d2.
Proof.
  intros H1. revert d2. induction H1 as [| c d1 Hc H1 IH]; intros d2 H2 Hlen Hval.
  - destruct d2; [done | discriminate].
  - destruct H2 as [| c' d2 Hc' H2]; [discriminate|].
    injection Hlen as Hlen.
    rewrite !base36_value_cons, <- Hlen in Hval.
    pose proof (base36_value_bound d1 H1) as B1.
    pose proof (base36_value_bound d2 H2) as B2. rewrite <- Hlen in B2.
    pose proof (digit36_value_range c Hc).
    pose proof (digit36_value_range c' Hc').
    assert (digit36_value c = digit36_value c') by nia.
    f_equal; [by apply digit36_value_inj|].
    apply IH; [done | done | nia].
Qed.

(** A numeral of more than one digit denotes at least the power of its
    length. *)
Lemma base36_numeral_low (digits : jsstring) n :
  base36_numeral digits n ->
  (2 <= length digits)%nat -> 36 ^ Z.of_nat (length digits - 1) <= n.
Proof.
  intros (_ & Hchars & Hlead & <-) Hlen.
  destruct Hchars as [| c rest Hc Hrest]; [simpl in Hlen; lia|].
  rewrite base36_value_cons.
  replace (length (c :: rest) - 1)%nat with (length rest) by (simpl; lia).
  pose proof (base36_value_bound rest Hrest).
  pose proof (digit36_value_range c Hc).
  destruct (Z.eq_dec (digit36_value c) 0) as [Hz | Hnz]; [|nia].
  apply digit36_value_zero in Hz; [|done]. subst c.
  specialize (Hlead eq_refl). injection Hlead as ->. simpl in Hlen. lia.
Qed.

Lemma base36_numeral_unique (d1 d2 : jsstring) n :
  base36_numeral d1 n -> base36_numeral d2 n -> d1 = d2.
Proof.
  intros N1 N2.
  assert (Hlen : forall a b, base36_numeral a n -> base36_numeral b n ->
            ~ (length a < length b)%nat).
  { intros a b Na Nb Hlt.
    pose proof (base36_numeral_low b n Nb) as Hlow.
    destruct Na as (Hne & Hchars & _ & Hval).
    pose proof (base36_value_bound a Hchars) as Hup. rewrite Hval in Hup.
    assert (0 < length a)%nat by (destruct a; [done | simpl; lia]).
    specialize (Hlow ltac:(lia)).
    assert (36 ^ Z.of_nat (length a) <= 36 ^ Z.of_nat (length b - 1))
      by (apply Z.pow_le_mono_r; lia).
    lia. }
  pose proof (Hlen d1 d2 N1 N2). pose proof (Hlen d2 d1 N2 N1).
  destruct N1 as (_ & C1 & _ & V1), N2 as (_ & C2 & _ & V2).
  apply base36_value_inj; [done | done | lia | congruence].
Qed.

(** No leading zero but for zero itself. *)
Lemma toString36_head n :
  0 <= n -> head (toString36 n) = Some 48 -> toString36 n = [48].
Proof.
  intros Hn.
  assert (Hall : forall (bound : nat) m, 0 <= m < Z.of_nat bound ->
            head (toString36 m) = Some 48 -> toString36 m = [48]).
  { induction bound as [| bound IH]; intros m Hm; [lia|].
    destruct (Z.lt_ge_cases m 36) as [Hs | Hs].
    - rewrite toString36_small by lia. simpl. by intros [= ->].
    - rewrite toString36_step by done.
      assert (Hq : 0 <= m / 36 < Z.of_nat bound).
      { split; [apply Z.div_pos; lia|]. apply Z.div_lt_upper_bound; lia. }
      pose proof (toString36_nonempty (m / 36)) as Hne.
      pose proof (toString36_value (m / 36) ltac:(lia)) as Hval.
      destruct (toString36 (m / 36)) as [| c t] eqn:E; [done|].
      simpl. intros [= ->].
      specialize (IH (m / 36) Hq). rewrite E in IH. specialize (IH eq_refl).
      injection IH as ->. change (base36_value [48]) with 0 in Hval.
      assert (0 < m / 36) by (apply Z.div_str_pos; lia). lia. }
  apply (Hall (S (Z.to_nat n))). lia.
Qed.

(** [toString36] gives the numeral of the number. *)
Lemma toString36_numeral n : 0 <= n -> base36_numeral (toString36 n) n.
Proof.
  intros Hn.
  split; [apply toString36_nonempty|].
  split; [apply toString36_chars|].
  split; [by apply toString36_head | by apply toString36_value].
Qed.

End Hash.

Section HashClaims.

Implicit Types (s : jsstring) (k : Z) (seed : option number).

(** C4, as the code has it.  For every string and every integer seed whose
    product with 33 at the first turn is exact (so it is when the product
    stays within [2 ^ 53], see [js_mul_exact]; the empty string has no
    first turn), the digest of [hash] is the one the reference of the
    specification defines, and the only one: wrapping to 32 bits at each
    turn as [^] does gives what combining on plain integers and reducing
    to 32 bits once at the end gives, and [toString(36)] writes the numeral
    of that value. *)
Theorem hash_refines_reference s k :
  (s <> [] -> integer_value (js_mul (int k) (int 33)) = Some (k * 33)) ->
  forall out : jsstring, hash_reference s k out <-> out = hash s (Some (int k)).
Proof.
  intros Hexact out.
  unfold hash, hash_reference, substr0.
  change (default default_seed (Some (int k))) with (int k).
  rewrite (hash_loop_reference s k Hexact).
  set (value := fold_left mix (rev s) k mod 2 ^ 32).
  assert (Hvalue : 0 <= value) by (apply Z.mod_pos_bound; lia).
  split.
  - intros (rendered & Hnumeral & ->). f_equal.
    apply (base36_numeral_unique _ _ value Hnumeral).
    by apply toString36_numeral.
  - intros ->. exists (toString36 value).
    split; [by apply toString36_numeral | done].
Qed.

(** C5.  The digest of any string under any seed is between one and six
    characters long, all of them in [[0-9a-z]]. *)
Theorem hash_output_shape s seed :
  (1 <= length (hash s seed) <= 6)%nat
  /\ Forall (fun c => base36_char c = true) (hash s seed).
Proof.
  unfold hash, substr0.
  set (digits := toString36 _).
  assert (Hne : digits <> []) by apply toString36_nonempty.
  split.
  - rewrite length_take. destruct digits; [done|]. rewrite length_cons. lia.
  - apply Forall_take, toString36_chars.
Qed.

Lemma hash_step_deterministic s (a b c : nat * number) :
  hash_step s a b -> hash_step s a c -> b = c.
Proof. intros Hb Hc. inversion Hb; subst. inversion Hc; subst. reflexivity. Qed.

(** Whatever way the loop is run, it leaves with the value [hash_loop]
    computes. *)
Lemma hash_steps_final s (i : nat) (v final : number) :
  rtc (hash_step s) (i, v) (O, final) -> final = hash_loop s i v.
Proof.
  revert v. induction i as [| i IH]; intros v Hrun.
  - inversion Hrun as [| ? b ? Hstep]; subst; [done|]. inversion Hstep.
  - inversion Hrun as [| ? b ? Hstep Hrest]; subst.
    inversion Hstep; subst. simpl. by apply IH.
Qed.

(** The loop does leave: [hash_loop] is the end of a run. *)
Lemma hash_steps_total s (i : nat) (v : number) :
  rtc (hash_step s) (i, v) (O, hash_loop s i v).
Proof.
  revert v. induction i as [| i IH]; intros v; simpl.
  - apply rtc_refl.
  - eapply rtc_l; [constructor|]. apply IH.
Qed.

(** C9.  [hash] is deterministic: an evaluation of [hash(s, seed)] exists,
    any two evaluations return the same digest, and an omitted seed is the
    constant 5381. *)
Theorem hash_deterministic s seed :
  hash_run s seed (hash s seed)
  /\ (forall out1 out2 : jsstring,
        hash_run s seed out1 -> hash_run s seed out2 -> out1 = out2)
  /\ hash s None = hash s (Some (int 5381)).
Proof.
  split; [|split].
  - exists (hash_loop s (length s) (default default_seed seed)).
    split; [apply hash_steps_total | reflexivity].
  - intros out1 out2 (f1 & Hrun1 & ->) (f2 & Hrun2 & ->).
    apply hash_steps_final in Hrun1, Hrun2. congruence.
  - reflexivity.
Qed.

Lemma hash_deterministic_witness :
  hash_run (js "abc") None (js "375kp1")
  /\ hash_run (js "abc") None (hash (js "abc") None)
  /\ js "375kp1" = hash (js "abc") None.
Proof.
  destruct (hash_deterministic (js "abc") None) as (Hrun & Hdet & _).
  assert (Hout : hash_run (js "abc") None (js "375kp1")).
  { exists (hash_loop (js "abc") 3 (int 5381)).
    split; [apply hash_steps_total | reflexivity]. }
  split; [exact Hout|]. split; [exact Hrun|].
  exact (Hdet _ _ Hout Hrun).
Defined.

End HashClaims.

(** ** Duplicate detection *)

Section Duplicates.

Context {A : Type}.
Implicit Types (p : A -> bool) (l : list A) (i : Z).

Lemma every_from_true (q : A -> Z -> bool) l i :
  every_from q l i = true
  <-> forall (j : nat) x, l !! j = Some x -> q x (i + Z.of_nat j) = true.
Proof.
  revert i. induction l as [| y l IH]; intros i; simpl.
  - split; [intros _ j x Hj; by rewrite lookup_nil in Hj | done].
  - destruct (q y i) eqn:Hy.
    + rewrite IH. split.
      * intros Hall [| j] x Hj; simpl in Hj.
        -- injection Hj as <-. by rewrite Z.add_0_r.
        -- rewrite Nat2Z.inj_succ.
           replace (i + Z.succ (Z.of_nat j)) with (i + 1 + Z.of_nat j) by lia.
           by apply Hall.
      * intros Hall j x Hj.
        replace (i + 1 + Z.of_nat j) with (i + Z.of_nat (S j)) by lia.
        by apply Hall.
    + split; [done|]. intros Hall.
      specialize (Hall O y eq_refl). rewrite Z.add_0_r in Hall. congruence.
Qed.

(** [findIndex] answers the first position of a match when there is one. *)
Lemma findIndex_from_first p l i (j : nat) x :
  l !! j = Some x -> p x = true ->
  (forall (j' : nat) x', (j' < j)%nat -> l !! j' = Some x' -> p x' = false) ->
  findIndex_from p l i = i + Z.of_nat j.
Proof.
  revert i j. induction l as [| y l IH]; intros i j Hj Hp Hfirst.
  - by rewrite lookup_nil in Hj.
  - simpl. destruct j as [| j]; simpl in Hj.
    + injection Hj as ->. rewrite Hp. lia.
    + rewrite (Hfirst O y ltac:(lia) eq_refl).
      rewrite (IH (i + 1) j Hj Hp); [lia|].
      intros j' x' Hlt Hj'. apply (Hfirst (S j') x'); [lia | done].
Qed.

(** Among the positions of a match there is a first one. *)
Lemma first_match p l (j : nat) x :
  l !! j = Some x -> p x = true ->
  exists (j0 : nat) x0,
    (j0 <= j)%nat /\ l !! j0 = Some x0 /\ p x0 = true
    /\ forall (j' : nat) x', (j' < j0)%nat -> l !! j' = Some x' -> p x' = false.
Proof.
  revert j. induction l as [| y l IH]; intros j Hj Hp.
  - by rewrite lookup_nil in Hj.
  - destruct (p y) eqn:Hy.
    + exists O, y. repeat split; [lia | done..|]. intros j' x' Hlt. lia.
    + destruct j as [| j]; simpl in Hj; [congruence|].
      destruct (IH j Hj Hp) as (j0 & x0 & Hle & H0 & Hp0 & Hmin).
      exists (S j0), x0. repeat split; [lia | done..|].
      intros [| j'] x' Hlt Hj'; simpl in Hj'; [congruence|].
      apply (Hmin j' x'); [lia | done].
Qed.

End Duplicates.

Section DuplicateClaims.

Implicit Types (keys : list jsstring) (children : list Entity).

(** Every key sits at the first position where it occurs exactly when no
    key occurs twice. *)
Lemma every_first_index_NoDup keys :
  every (fun key index =>
           index =? findIndex (fun childKey => str_eqb childKey key) keys) keys
  = true
  <-> NoDup keys.
Proof.
  unfold every. rewrite every_from_true, NoDup_alt. split.
  - intros Hall i j x Hi Hj.
    pose proof (Hall i x Hi) as Hfi. pose proof (Hall j x Hj) as Hfj.
    apply Z.eqb_eq in Hfi, Hfj. lia.
  - intros Hinj j x Hj. apply Z.eqb_eq.
    assert (Hp : str_eqb x x = true) by (by apply bool_decide_eq_true).
    destruct (first_match (fun childKey => str_eqb childKey x) keys j x Hj Hp)
      as (j0 & x0 & _ & H0 & Hp0 & Hmin).
    unfold findIndex.
    rewrite (findIndex_from_first _ keys 0 j0 x0 H0 Hp0 Hmin).
    apply bool_decide_eq_true in Hp0. subst x0.
    rewrite (Hinj j j0 x Hj H0). lia.
Qed.

Lemma hasDuplicatedChildren_false children :
  hasDuplicatedChildren children = false
  <-> NoDup (map generateHashedKey children).
Proof.
  unfold hasDuplicatedChildren. rewrite negb_false_iff.
  apply every_first_index_NoDup.
Qed.

(** C3, as the code has it.  The result is [true] exactly when two
    positions of the collection carry the same fingerprint; so it is
    [true] for a collection holding the same entity twice, and [false]
    for a collection whose fingerprints are pairwise distinct. *)
Theorem hasDuplicatedChildren_iff_repeated_key children :
  (hasDuplicatedChildren children = true
   <-> exists (i j : nat) (e1 e2 : Entity),
         i <> j /\ children !! i = Some e1 /\ children !! j = Some e2
         /\ generateHashedKey e1 = generateHashedKey e2)
  /\ (forall (i j : nat) (e : Entity),
        i <> j -> children !! i = Some e -> children !! j = Some e ->
        hasDuplicatedChildren children = true)
  /\ (NoDup (map generateHashedKey children) ->
      hasDuplicatedChildren children = false).
Proof.
  assert (Hiff : hasDuplicatedChildren children = true
    <-> exists (i j : nat) (e1 e2 : Entity),
         i <> j /\ children !! i = Some e1 /\ children !! j = Some e2
         /\ generateHashedKey e1 = generateHashedKey e2).
  { rewrite <- not_false_iff_true, hasDuplicatedChildren_false, NoDup_alt.
    split.
    - intros Hdup.
      destruct (decide (NoDup (map generateHashedKey children))) as [Hnd | Hnd].
      { exfalso. apply Hdup. by apply NoDup_alt. }
      clear Hdup. induction children as [| e children IH].
      { exfalso. apply Hnd. constructor. }
      destruct (decide (generateHashedKey e ∈ map generateHashedKey children))
        as [Hin | Hnin].
      + apply list_elem_of_fmap in Hin as (e2 & Hkey & Hin).
        apply list_elem_of_lookup in Hin as (j & Hj).
        exists O, (S j), e, e2. by repeat split.
      + destruct IH as (i & j & e1 & e2 & Hne & Hi & Hj & Hkey).
        { intros Hnd'. apply Hnd. simpl. by constructor. }
        exists (S i), (S j), e1, e2. repeat split; [lia | done..].
    - intros (i & j & e1 & e2 & Hne & Hi & Hj & Hkey) Hinj.
      apply Hne, (Hinj i j (generateHashedKey e1)).
      + by rewrite list_lookup_fmap, Hi.
      + by rewrite list_lookup_fmap, Hj, Hkey. }
  split; [exact Hiff|]. split.
  - intros i j e Hne Hi Hj. apply Hiff. by exists i, j, e, e.
  - apply hasDuplicatedChildren_false.
Qed.

End DuplicateClaims.

(** ** Objects and paths *)

Section Objects.

Implicit Types (key : jsstring) (v : json) (fields : list (jsstring * json)).

Lemma get_property_set_eq key v fields :
  get_property key (set_property key v fields) = Some v.
Proof.
  induction fields as [| [k v0] fields IH]; simpl.
  - by rewrite bool_decide_eq_true_2.
  - destruct (bool_decide (k = key)) eqn:E; simpl; rewrite E; [done | exact IH].
Qed.

Lemma get_property_set_ne key key' v fields :
  key' <> key ->
  get_property key' (set_property key v fields) = get_property key' fields.
Proof.
  intros Hne. induction fields as [| [k v0] fields IH]; simpl.
  - by rewrite bool_decide_eq_false_2.
  - destruct (bool_decide (k = key)) eqn:E; simpl.
    + apply bool_decide_eq_true in E. subst k.
      by rewrite bool_decide_eq_false_2.
    + by rewrite IH.
Qed.

(** Writing a property leaves the others where they are, in their order. *)
Lemma delete_property_set key v fields :
  delete_property key (set_property key v fields) = delete_property key fields.
Proof.
  unfold delete_property.
  induction fields as [| [k v0] fields IH]; simpl.
  - by rewrite filter_cons_False, filter_nil by (simpl; tauto).
  - destruct (bool_decide (k = key)) eqn:E.
    + apply bool_decide_eq_true in E. subst k.
      by rewrite !filter_cons_False by (simpl; tauto).
    + apply bool_decide_eq_false in E.
      rewrite !filter_cons_True by done. by rewrite IH.
Qed.

Lemma last_svg_path (d n : jsstring) : last (svg_path d n) = Some 103.
Proof.
  unfold svg_path. rewrite !app_assoc.
  change (js ".svg") with ([46; 115; 118] ++ [103]).
  by rewrite app_assoc, last_snoc.
Qed.

Lemma last_json_path (d n : jsstring) : last (json_path d n) = Some 110.
Proof.
  unfold json_path. rewrite !app_assoc.
  change (js ".json") with ([46; 106; 115; 111] ++ [110]).
  by rewrite app_assoc, last_snoc.
Qed.

(** An artwork path is never a metadata path. *)
Lemma svg_path_ne_json_path (d n d' n' : jsstring) : svg_path d n <> json_path d' n'.
Proof.
  intros E. pose proof (last_svg_path d n) as Hs.
  rewrite E, last_json_path in Hs. discriminate.
Qed.

Lemma json_path_ne_svg_path (d n d' n' : jsstring) : json_path d n <> svg_path d' n'.
Proof. intros E. symmetry in E. by apply svg_path_ne_json_path in E. Qed.

(** What the migration stores in [aliases] of an object: the return value
    of [push] when there was an array, the one-element array otherwise. *)
Lemma migrate_aliases_object fields (oldName newName : jsstring) :
  migrate_aliases (JObj fields) oldName newName
  = Returned (JObj (set_property (js "aliases")
      match get_property (js "aliases") fields with
      | Some (JArr aliases) =>
          JNum (inject_Z
                  (push_result
                     (filter (fun name => strict_neq_string name newName) aliases)
                     (JStr oldName)))
      | _ => JArr [JStr oldName]
      end fields)).
Proof.
  unfold migrate_aliases. simpl read_aliases.
  destruct (get_property (js "aliases") fields) as [[| | | | aliases |] |]; try done.
  simpl assign_aliases.
  unfold cleanup_empty_aliases, aliases_length_is_zero. simpl read_aliases.
  by rewrite get_property_set_eq.
Qed.

End Objects.

(** ** The rename workflow *)

Section Rename.

Context `{JSON}.

Implicit Types (d oldName newName svg text : jsstring) (w : World).

#[local] Arguments svg_path : simpl never.
#[local] Arguments json_path : simpl never.
#[local] Arguments next_steps : simpl never.
#[local] Arguments js : simpl never.

(** Two paths differ: by their extension, or by a known fact. *)
Ltac paths_differ :=
  solve [ apply svg_path_ne_json_path | apply json_path_ne_svg_path
        | assumption | congruence ].

Lemma next_steps_returns oldName newName w :
  exists lines,
    next_steps oldName newName w
    = ({| files := files w; git_log := git_log w; console := lines |}, Returned tt).
Proof. eexists. reflexivity. Qed.

(** Once the four preconditions hold and the metadata parses to a value
    the migration accepts, the workflow returns, with the two files moved,
    the metadata rewritten and staged. *)
Lemma renameIcon_returns d oldName newName logInfo w svg text v v' :
  files w !! svg_path d newName = None ->
  files w !! json_path d newName = None ->
  files w !! svg_path d oldName = Some svg ->
  files w !! json_path d oldName = Some text ->
  JSON_parse text = Some v ->
  migrate_aliases v oldName newName = Returned v' ->
  exists w',
    renameIcon d oldName newName logInfo w = (w', Returned tt)
    /\ files w'
       = <[json_path d newName := JSON_stringify v' 2]>
           (<[json_path d newName := text]>
              (delete (json_path d oldName)
                 (<[svg_path d newName := svg]>
                    (delete (svg_path d oldName) (files w)))))
    /\ git_log w'
       = git_log w
         ++ [GitMv (svg_path d oldName) (svg_path d newName);
             GitMv (json_path d oldName) (json_path d newName);
             GitAdd (json_path d newName)].
Proof.
  intros Hns Hnj Hos Hoj Hparse Hmig.
  assert (Hoj' :
    <[svg_path d newName := svg]> (delete (svg_path d oldName) (files w))
      !! json_path d oldName = Some text).
  { rewrite lookup_insert_ne by paths_differ.
    by rewrite lookup_delete_ne by paths_differ. }
  assert (Hnj' :
    <[svg_path d newName := svg]> (delete (svg_path d oldName) (files w))
      !! json_path d newName = None).
  { rewrite lookup_insert_ne by paths_differ.
    by rewrite lookup_delete_ne by paths_differ. }
  unfold renameIcon, bind, fileExists, ret, throw, lift.
  rewrite Hns. simpl. rewrite Hnj. simpl. rewrite Hos. simpl.
  rewrite Hoj. simpl.
  unfold git_mv at 1. rewrite Hos, Hns. simpl.
  unfold git_mv. simpl. rewrite Hoj', Hnj'. simpl.
  unfold readFileSync. simpl. rewrite lookup_insert_eq, Hparse, Hmig. simpl.
  unfold git_add, writeFileSync. simpl. rewrite lookup_insert_eq.
  destruct (default true logInfo).
  - edestruct next_steps_returns as [lines ->].
    eexists. split; [reflexivity|]. simpl. split; [done|].
    by rewrite <- !app_assoc.
  - eexists. split; [reflexivity|]. simpl. split; [done|].
    by rewrite <- !app_assoc.
Qed.

(** C2.  A failed precondition throws the error of that check and leaves
    the world (files, git commands, console) as it was; the checks are
    made in the order new artwork, new metadata, old artwork, old
    metadata, so that an existing new artwork file is reported whatever
    the other three checks would say. *)
Theorem renameIcon_precondition_failure d oldName newName logInfo w :
  (is_Some (files w !! svg_path d newName) ->
   renameIcon d oldName newName logInfo w
   = (w, Thrown (Error (msg_icon_exists newName))))
  /\ (files w !! svg_path d newName = None ->
      is_Some (files w !! json_path d newName) ->
      renameIcon d oldName newName logInfo w
      = (w, Thrown (Error (msg_metadata_exists newName))))
  /\ (files w !! svg_path d newName = None ->
      files w !! json_path d newName = None ->
      files w !! svg_path d oldName = None ->
      renameIcon d oldName newName logInfo w
      = (w, Thrown (Error (msg_icon_missing oldName))))
  /\ (files w !! svg_path d newName = None ->
      files w !! json_path d newName = None ->
      is_Some (files w !! svg_path d oldName) ->
      files w !! json_path d oldName = None ->
      renameIcon d oldName newName logInfo w
      = (w, Thrown (Error (msg_metadata_missing oldName)))).
Proof.
  unfold renameIcon, bind, fileExists, ret, throw.
  repeat split.
  - intros [c ->]. reflexivity.
  - intros -> [c Hc]. simpl. by rewrite Hc.
  - intros -> Hnj Hos. simpl. rewrite Hnj. simpl. by rewrite Hos.
  - intros -> Hnj [c Hos] Hoj. simpl. rewrite Hnj. simpl. rewrite Hos. simpl.
    by rewrite Hoj.
Qed.

(** C7.  Renaming an icon whose metadata object has no aliases array
    returns, with artwork and metadata under the new name and no longer
    under the old one, and the written metadata has [aliases] equal to
    the one-element array of the old name. *)
Theorem renameIcon_without_aliases d oldName newName logInfo w svg text fields :
  files w !! svg_path d newName = None ->
  files w !! json_path d newName = None ->
  files w !! svg_path d oldName = Some svg ->
  files w !! json_path d oldName = Some text ->
  JSON_parse text = Some (JObj fields) ->
  (forall items, get_property (js "aliases") fields <> Some (JArr items)) ->
  exists w' fields',
    renameIcon d oldName newName logInfo w = (w', Returned tt)
    /\ files w' !! json_path d newName = Some (JSON_stringify (JObj fields') 2)
    /\ get_property (js "aliases") fields' = Some (JArr [JStr oldName])
    /\ files w' !! svg_path d newName = Some svg
    /\ files w' !! svg_path d oldName = None
    /\ files w' !! json_path d oldName = None.
Proof.
  intros Hns Hnj Hos Hoj Hparse Hnone.
  destruct (renameIcon_returns d oldName newName logInfo w svg text _ _
              Hns Hnj Hos Hoj Hparse (migrate_aliases_object fields oldName newName))
    as (w' & Hrun & Hfiles & _).
  assert (svg_path d oldName <> svg_path d newName) by congruence.
  assert (json_path d oldName <> json_path d newName) by congruence.
  exists w'. eexists. split; [exact Hrun|]. rewrite Hfiles.
  split; [by rewrite lookup_insert_eq|].
  split.
  { rewrite get_property_set_eq.
    destruct (get_property (js "aliases") fields) as [[| | | | items |] |] eqn:E;
      try done.
    by destruct (Hnone items). }
  split.
  { rewrite !lookup_insert_ne by paths_differ.
    rewrite lookup_delete_ne by paths_differ.
    by rewrite lookup_insert_eq. }
  split.
  { rewrite !lookup_insert_ne by paths_differ.
    rewrite lookup_delete_ne by paths_differ.
    rewrite lookup_insert_ne by paths_differ. by rewrite lookup_delete_eq. }
  rewrite !lookup_insert_ne by paths_differ. by rewrite lookup_delete_eq.
Qed.

(** C8.  Through a rename that returns, the fields of the metadata object
    other than [aliases] are written back as they were read: each keeps
    its value, and they keep their order. *)
Theorem renameIcon_preserves_other_fields d oldName newName logInfo w svg text fields :
  files w !! svg_path d newName = None ->
  files w !! json_path d newName = None ->
  files w !! svg_path d oldName = Some svg ->
  files w !! json_path d oldName = Some text ->
  JSON_parse text = Some (JObj fields) ->
  exists w' fields',
    renameIcon d oldName newName logInfo w = (w', Returned tt)
    /\ files w' !! json_path d newName = Some (JSON_stringify (JObj fields') 2)
    /\ (forall key, key <> js "aliases" ->
          get_property key fields' = get_property key fields)
    /\ delete_property (js "aliases") fields' = delete_property (js "aliases") fields.
Proof.
  intros Hns Hnj Hos Hoj Hparse.
  destruct (renameIcon_returns d oldName newName logInfo w svg text _ _
              Hns Hnj Hos Hoj Hparse (migrate_aliases_object fields oldName newName))
    as (w' & Hrun & Hfiles & _).
  exists w'. eexists. split; [exact Hrun|]. rewrite Hfiles.
  split; [by rewrite lookup_insert_eq|].
  split.
  - intros key Hkey. by apply get_property_set_ne.
  - apply delete_property_set.
Qed.


(** C1, what the code does.  When the metadata object has an aliases
    array, the value written under [aliases] is the number [push]
    returned, one more than the count of the entries that differ from the
    new name, and not an array. *)
Theorem renameIcon_with_aliases_persists_number
    d oldName newName logInfo w svg text fields aliases :
  files w !! svg_path d newName = None ->
  files w !! json_path d newName = None ->
  files w !! svg_path d oldName = Some svg ->
  files w !! json_path d oldName = Some text ->
  JSON_parse text = Some (JObj fields) ->
  get_property (js "aliases") fields = Some (JArr aliases) ->
  exists w' fields',
    renameIcon d oldName newName logInfo w = (w', Returned tt)
    /\ files w' !! json_path d newName = Some (JSON_stringify (JObj fields') 2)
    /\ get_property (js "aliases") fields'
       = Some (JNum (inject_Z
           (Z.of_nat
              (length (filter (fun name => strict_neq_string name newName) aliases))
            + 1))).
Proof.
  intros Hns Hnj Hos Hoj Hparse Haliases.
  destruct (renameIcon_returns d oldName newName logInfo w svg text _ _
              Hns Hnj Hos Hoj Hparse (migrate_aliases_object fields oldName newName))
    as (w' & Hrun & Hfiles & _).
  exists w'. eexists. split; [exact Hrun|]. rewrite Hfiles.
  split; [by rewrite lookup_insert_eq|].
  rewrite get_property_set_eq, Haliases. unfold push_result.
  rewrite length_app. simpl length. do 3 f_equal. lia.
Qed.

End Rename.

(** ** [readFile] *)

Section ReadFileClaims.

Variable builtin : string -> list value -> World -> outcome value.

(** C10.  [readFile] throws on every path, whatever the runtime's
    functions do and whatever the global object binds: it never returns
    the contents of a file.  In a module, where [__dirname] is bound
    nowhere, the error is the ReferenceError of that identifier. *)
Theorem readFile_always_throws (globals : gmap string value) (path : jsstring)
    (w : World) :
  (exists e, readFile builtin globals path w = Thrown e)
  /\ (globals !! "__dirname" = None ->
      readFile builtin globals path w = Thrown (ReferenceError "__dirname")).
Proof.
  unfold readFile, resolve_identifier. simpl.
  destruct (globals !! "__dirname") as [v |]; simpl.
  - split; [by eexists | done].
  - split; [by eexists | done].
Qed.

End ReadFileClaims.

(** ** Examples *)

Example hash_abc : hash (js "abc") None = js "375kp1".
Proof. reflexivity. Qed.

Example hash_empty : hash [] None = js "45h".
Proof. reflexivity. Qed.

(** A seven-digit numeral loses its last digit: [4294967295] is
    ["1z141z3"] in base 36. *)
Example hash_seven_digits : hash [] (Some (int (-1))) = js "1z141z".
Proof. reflexivity. Qed.

(** Seeds that are no integers: [0.5 * 33] is [16.5], which [^] cuts to
    16; not-a-number and the infinities count as 0. *)
Example hash_other_seeds :
  hash (js "a") (Some (Finite 1 (-1))) = js "35"
  /\ hash [] (Some NaN) = js "0"
  /\ hash (js "a") (Some (Infinity false)) = js "2p".
Proof. repeat split; vm_compute; reflexivity. Qed.

(** The seed [2 ^ 53 - 1]: its product with 33 is no double, and the
    nearest one is [33 * 2 ^ 53 - 64]. *)
Example large_seed_product :
  js_mul (int (2 ^ 53 - 1)) (int 33) = Finite ((33 * 2 ^ 53 - 64) / 64) 6
  /\ integer_value (js_mul (int (2 ^ 53 - 1)) (int 33)) = Some (33 * 2 ^ 53 - 64).
Proof. split; vm_compute; reflexivity. Qed.

Lemma hash_refines_reference_witness :
  hash_reference (js "abc") 5381 (js "375kp1")
  /\ ~ hash_reference (js "abc") 5381 (js "375kp2").
Proof.
  pose proof (hash_refines_reference (js "abc") 5381
                ltac:(intros _; vm_compute; reflexivity)) as Hiff.
  split.
  - apply Hiff. vm_compute. reflexivity.
  - intros Href. apply Hiff in Href. vm_compute in Href. discriminate.
Defined.

(** C4, the counterexample: with the seed [2 ^ 53 - 1] and the string
    ["a"] the digest is ["1z141w"], where the reference gives ["1z141x"]. *)
Lemma hash_differs_from_reference :
  ~ (forall (s : jsstring) (k : Z), hash_reference s k (hash s (Some (int k)))).
Proof.
  intros Hall. specialize (Hall (js "a") (2 ^ 53 - 1)).
  destruct Hall as (rendered & Hnumeral & Hout).
  assert (Hrendered : rendered = js "1z141xa").
  { apply (base36_numeral_unique _ _ _ Hnumeral).
    split; [discriminate|]. split; [by apply (bool_decide_unpack _)|].
    split; [discriminate | vm_compute; reflexivity]. }
  subst rendered. vm_compute in Hout. discriminate.
Qed.

Example hash_large_seed :
  hash (js "a") (Some (int (2 ^ 53 - 1))) = js "1z141w"
  /\ hash_reference (js "a") (2 ^ 53 - 1) (js "1z141x").
Proof.
  split; [vm_compute; reflexivity|].
  exists (js "1z141xa"). split; [|vm_compute; reflexivity].
  split; [discriminate|]. split; [by apply (bool_decide_unpack _)|].
  split; [discriminate | vm_compute; reflexivity].
Qed.

Example stringify_entity_path :
  stringify_entity (name entity_path) (attributes entity_path)
  = [91; 34] ++ js "path" ++ [34] ++ js ",{" ++ [34] ++ js "cx" ++ [34] ++ js ":"
    ++ [34] ++ js "198" ++ [34] ++ js "}]".
Proof. reflexivity. Qed.

Example colliding_keys :
  generateHashedKey entity_path = js "10axrp"
  /\ generateHashedKey entity_rect = js "10axrp".
Proof. split; vm_compute; reflexivity. Qed.

Lemma readFile_always_throws_witness :
  readFile (fun _ _ _ => Returned VUndefined) ∅ (js "icons/home.json") world_home
  = Thrown (ReferenceError "__dirname").
Proof.
  apply (proj2 (readFile_always_throws (fun _ _ _ => Returned VUndefined) ∅
                  (js "icons/home.json") world_home)).
  reflexivity.
Defined.

(** C3, the counterexample: the collection of [entity_path] and
    [entity_rect] has pairwise distinct (name, attributes) pairs, yet both
    hash to the same key and the detection answers [true]. *)
Lemma distinct_entities_reported_duplicated :
  ~ (forall children : list Entity,
       NoDup children -> hasDuplicatedChildren children = false).
Proof.
  intros Hall.
  assert (Hnd : NoDup [entity_path; entity_rect]).
  { apply NoDup_cons. split.
    - intros Hin. apply list_elem_of_singleton in Hin. discriminate.
    - apply NoDup_singleton. }
  specialize (Hall _ Hnd). vm_compute in Hall. discriminate.
Qed.

Lemma hasDuplicatedChildren_iff_repeated_key_witness :
  hasDuplicatedChildren [entity_path; entity_rect; entity_path] = true
  /\ hasDuplicatedChildren [entity_path; entity_rect] = true
  /\ hasDuplicatedChildren [entity_path] = false.
Proof.
  split; [|split].
  - apply (proj1 (proj2 (hasDuplicatedChildren_iff_repeated_key
                           [entity_path; entity_rect; entity_path]))
             0%nat 2%nat entity_path); [lia | reflexivity | reflexivity].
  - apply (proj1 (hasDuplicatedChildren_iff_repeated_key [entity_path; entity_rect])).
    exists 0%nat, 1%nat, entity_path, entity_rect.
    repeat split; first [lia | vm_compute; reflexivity].
  - apply (proj2 (proj2 (hasDuplicatedChildren_iff_repeated_key [entity_path]))).
    apply NoDup_singleton.
Defined.

(** The scenario of the specification for the order of the checks: [a] is
    renamed to [b] while the artwork of [b] exists (and its metadata too);
    then one tree for each of the three other checks. *)
Lemma renameIcon_precondition_failure_witness :
  @renameIcon sample_JSON (js "icons") (js "a") (js "b") None world_a_b
  = (world_a_b, Thrown (Error (js "ERROR: Icon icons/b.svg already exists")))
  /\ (let w := {| files := {[ js "icons/b.json" := js "{}" ]};
                  git_log := []; console := [] |} in
      @renameIcon sample_JSON (js "icons") (js "a") (js "b") None w
      = (w, Thrown (Error (js "ERROR: Metadata file icons/b.json already exists"))))
  /\ @renameIcon sample_JSON (js "icons") (js "x") (js "y") None world_home
     = (world_home, Thrown (Error (js "ERROR: Icon icons/x.svg doesn't exist")))
  /\ (let w := {| files := {[ js "icons/a.svg" := svg_text ]};
                  git_log := []; console := [] |} in
      @renameIcon sample_JSON (js "icons") (js "a") (js "b") None w
      = (w, Thrown (Error (js "ERROR: Metadata file icons/a.json doesn't exist")))).
Proof.
  split; [|split; [|split]].
  - apply (proj1 (@renameIcon_precondition_failure sample_JSON
                    (js "icons") (js "a") (js "b") None world_a_b)).
    vm_compute. eauto.
  - intros w.
    apply (proj1 (proj2 (@renameIcon_precondition_failure sample_JSON
                    (js "icons") (js "a") (js "b") None w)));
      [reflexivity | vm_compute; eauto].
  - apply (proj1 (proj2 (proj2 (@renameIcon_precondition_failure sample_JSON
                    (js "icons") (js "x") (js "y") None world_home))));
      reflexivity.
  - intros w.
    apply (proj2 (proj2 (proj2 (@renameIcon_precondition_failure sample_JSON
                    (js "icons") (js "a") (js "b") None w))));
      [reflexivity | reflexivity | vm_compute; eauto | reflexivity].
Defined.

(** The scenario of the specification: [home], without aliases, is renamed
    to [house]. *)
Lemma renameIcon_without_aliases_witness :
  exists w' fields',
    @renameIcon sample_JSON (js "icons") (js "home") (js "house") None world_home
    = (w', Returned tt)
    /\ files w' !! js "icons/house.json" = Some (sample_stringify (JObj fields') 2)
    /\ get_property (js "aliases") fields' = Some (JArr [JStr (js "home")])
    /\ files w' !! js "icons/house.svg" = Some svg_text
    /\ files w' !! js "icons/home.svg" = None
    /\ files w' !! js "icons/home.json" = None.
Proof.
  apply (@renameIcon_without_aliases sample_JSON
           (js "icons") (js "home") (js "house") None world_home svg_text
           (sample_stringify doc_home 2)
           [(js "tags", JArr [JStr (js "building")])]);
    try reflexivity.
  intros items E. vm_compute in E. discriminate.
Defined.

Lemma renameIcon_preserves_other_fields_witness :
  exists w' fields',
    @renameIcon sample_JSON (js "icons") (js "house") (js "home") None world_house
    = (w', Returned tt)
    /\ files w' !! js "icons/home.json" = Some (sample_stringify (JObj fields') 2)
    /\ (forall key, key <> js "aliases" ->
          get_property key fields'
          = get_property key
              [(js "tags", JArr [JStr (js "building")]);
               (js "aliases", JArr [JStr (js "home")])])
    /\ delete_property (js "aliases") fields'
       = [(js "tags", JArr [JStr (js "building")])].
Proof.
  apply (@renameIcon_preserves_other_fields sample_JSON
           (js "icons") (js "house") (js "home") None world_house svg_text
           (sample_stringify doc_house 2)
           [(js "tags", JArr [JStr (js "building")]);
            (js "aliases", JArr [JStr (js "home")])]);
    reflexivity.
Defined.


(** C1 at the input of the specification: [house], with the aliases
    [["home"]], is renamed to [home].  The metadata written has the number
    1 under [aliases], where the specification expects [["house"]]. *)
Lemma renameIcon_with_aliases_persists_number_witness :
  exists w' fields',
    @renameIcon sample_JSON (js "icons") (js "house") (js "home") None world_house
    = (w', Returned tt)
    /\ files w' !! js "icons/home.json" = Some (sample_stringify (JObj fields') 2)
    /\ get_property (js "aliases") fields' = Some (JNum (inject_Z 1)).
Proof.
  apply (@renameIcon_with_aliases_persists_number sample_JSON
           (js "icons") (js "house") (js "home") None world_house svg_text
           (sample_stringify doc_house 2)
           [(js "tags", JArr [JStr (js "building")]);
            (js "aliases", JArr [JStr (js "home")])]
           [JStr (js "home")]);
    reflexivity.
Defined.

(** The same run, evaluated: the file written for [home]. *)
Lemma rename_house_to_home_writes_number :
  files (@renameIcon sample_JSON (js "icons") (js "house") (js "home") None
           world_house).1 !! js "icons/home.json"
  = Some (sample_stringify
            (JObj [(js "tags", JArr [JStr (js "building")]);
                   (js "aliases", JNum (inject_Z 1))]) 2)
  /\ sample_stringify
       (JObj [(js "tags", JArr [JStr (js "building")]);
              (js "aliases", JNum (inject_Z 1))]) 2
     <> sample_stringify
          (JObj [(js "tags", JArr [JStr (js "building")]);
                 (js "aliases", JArr [JStr (js "house")])]) 2.
Proof.
  split; [vm_compute; reflexivity|].
  intros E. vm_compute in E. discriminate.
Qed.

(** * Further properties *)

(** ** Arrays *)

Section ArrayProperties.

Context {A : Type}.

Variable strict_equals : A -> A -> bool.

Implicit Types (a b l pre suf : list A) (x y z : A).

Local Notation "x === y" := (strict_equals x y = true) (at level 70).

(** [x] is [===] to itself and to no value of [pre]: what makes the filter
    of [mergeArrays] keep a value that comes after [pre]. *)
Local Abbreviation first_here pre x :=
  (forallb (fun y => negb (strict_equals y x)) pre && strict_equals x x).

Lemma findIndex_from_range (p : A -> bool) l (i : Z) :
  findIndex_from p l i = -1 \/ i <= findIndex_from p l i.
Proof.
  revert i. induction l as [| y l IH]; intros i; simpl; [by left|].
  destruct (p y); [right; lia|].
  destruct (IH (i + 1)) as [-> | Hle]; [by left | right; lia].
Qed.

(** A value is found at the position [length pre] of [pre ++ x :: suf]
    exactly when it is [===] to itself and to nothing in [pre]. *)
Lemma findIndex_from_app_cons (p : A -> bool) pre x suf (i : Z) :
  0 <= i ->
  (findIndex_from p (pre ++ x :: suf) i =? i + Z.of_nat (length pre))
  = forallb (fun y => negb (p y)) pre && p x.
Proof.
  revert i. induction pre as [| y pre IH]; intros i Hi; simpl.
  - destruct (p x); [apply Z.eqb_eq; lia|].
    apply Z.eqb_neq. destruct (findIndex_from_range p suf (i + 1)); lia.
  - destruct (p y); simpl; [apply Z.eqb_neq; lia|].
    rewrite <- (IH (i + 1)) by lia. f_equal. lia.
Qed.

Lemma indexOf_app_cons pre x suf :
  (indexOf strict_equals x (pre ++ x :: suf) =? Z.of_nat (length pre))
  = first_here pre x.
Proof.
  unfold indexOf, findIndex.
  apply (findIndex_from_app_cons (fun y => strict_equals y x) pre x suf 0). lia.
Qed.

(** The filter of [mergeArrays] from the position [length pre] on. *)
Local Abbreviation fresh pre suf :=
  (filter_from (fun i p => indexOf strict_equals i (pre ++ suf) =? p) suf
     (Z.of_nat (length pre))).

Lemma fresh_cons pre y suf :
  fresh pre (y :: suf)
  = (if first_here pre y then [y] else []) ++ fresh (pre ++ [y]) suf.
Proof.
  simpl. rewrite indexOf_app_cons.
  replace (Z.of_nat (length pre) + 1) with (Z.of_nat (length (pre ++ [y])))
    by (rewrite length_app; simpl; lia).
  rewrite <- (app_assoc pre [y] suf).
  by destruct (first_here pre y).
Qed.

Lemma mergeArrays_fresh a b : mergeArrays strict_equals a b = fresh (@nil A) (a ++ b).
Proof. reflexivity. Qed.

Lemma first_here_app pre more x :
  first_here (pre ++ more) x = true -> first_here pre x = true.
Proof.
  rewrite forallb_app, !andb_true_iff. tauto.
Qed.

Lemma first_here_spec pre x :
  first_here pre x = true
  <-> x === x /\ forall z, z ∈ pre -> strict_equals z x = false.
Proof.
  rewrite andb_true_iff, forallb_forall. split.
  - intros [Hall Hx]. split; [done|]. intros z Hz.
    apply negb_true_iff, Hall. by apply list_elem_of_In.
  - intros [Hx Hall]. split; [|done]. intros z Hz.
    apply negb_true_iff, Hall. by apply list_elem_of_In.
Qed.

(** What is kept comes from [suf], is [===] to itself and to nothing
    before it. *)
Lemma fresh_elem_of pre suf x :
  x ∈ fresh pre suf -> x ∈ suf /\ first_here pre x = true.
Proof.
  revert pre. induction suf as [| y suf IH]; intros pre.
  - simpl. intros Hx. by apply elem_of_nil in Hx.
  - rewrite fresh_cons, elem_of_app. intros [Hx | Hx].
    + destruct (first_here pre y) eqn:E; [|by apply elem_of_nil in Hx].
      apply list_elem_of_singleton in Hx. subst x. split; [left | done].
    + apply IH in Hx as [Hin Hfirst].
      split; [by right | by apply first_here_app in Hfirst].
Qed.

(** Of two values that are kept, the earlier is not [===] to the later. *)
Lemma fresh_lookup pre suf (i j : nat) x y :
  (i < j)%nat -> fresh pre suf !! i = Some x -> fresh pre suf !! j = Some y ->
  strict_equals x y = false.
Proof.
  revert pre i j. induction suf as [| y0 suf IH]; intros pre i j Hlt.
  - simpl. by rewrite lookup_nil.
  - rewrite fresh_cons.
    destruct (first_here pre y0); simpl; [|by apply IH].
    destruct i as [| i], j as [| j]; simpl; try lia; [|apply IH; lia].
    intros [= <-] Hy.
    apply list_elem_of_lookup_2, fresh_elem_of in Hy as [_ Hy].
    apply first_here_spec in Hy as [_ Hy].
    apply Hy, elem_of_app. right. by apply list_elem_of_singleton.
Qed.

Lemma fresh_sublist pre suf : sublist (fresh pre suf) suf.
Proof.
  revert pre. induction suf as [| y suf IH]; intros pre.
  - constructor.
  - rewrite fresh_cons.
    destruct (first_here pre y); simpl.
    + by apply sublist_skip.
    + by apply sublist_cons.
Qed.

Lemma fresh_app pre s1 s2 :
  fresh pre (s1 ++ s2) = fresh pre s1 ++ fresh (pre ++ s1) s2.
Proof.
  revert pre. induction s1 as [| y s1 IH]; intros pre.
  - simpl. by rewrite app_nil_r.
  - rewrite <- app_comm_cons, !fresh_cons, IH, <- !app_assoc. reflexivity.
Qed.

Lemma distinct_tail y suf : distinct strict_equals (y :: suf) -> distinct strict_equals suf.
Proof.
  intros Hd i j x x' Hi Hj.
  rewrite (Hd (S i) (S j) x x' Hi Hj). lia.
Qed.

(** Values that are all new and all different are all kept. *)
Lemma fresh_all_new pre suf :
  distinct strict_equals suf ->
  (forall z x, z ∈ pre -> x ∈ suf -> strict_equals z x = false) ->
  fresh pre suf = suf.
Proof.
  revert pre. induction suf as [| y suf IH]; intros pre Hd Hnew; [done|].
  rewrite fresh_cons.
  assert (Hy : first_here pre y = true).
  { apply first_here_spec. split.
    - by apply (Hd O O y y).
    - intros z Hz. apply Hnew; [done | left]. }
  rewrite Hy. simpl. f_equal.
  apply IH; [by apply distinct_tail in Hd|].
  intros z x Hz Hx. apply elem_of_app in Hz as [Hz | Hz].
  - apply Hnew; [done | by right].
  - apply list_elem_of_singleton in Hz. subst z.
    apply list_elem_of_lookup in Hx as [j Hj].
    apply not_true_is_false. intros Heq.
    by apply (Hd O (S j) y x) in Heq.
Qed.

(** Values that are none the first of their kind are all dropped. *)
Lemma fresh_all_old pre suf :
  (forall x, x ∈ suf -> first_here pre x = false) -> fresh pre suf = [].
Proof.
  revert pre. induction suf as [| y suf IH]; intros pre Hold; [done|].
  rewrite fresh_cons, (Hold y) by left.
  simpl. apply IH. intros x Hx.
  apply not_true_is_false. intros Hfirst.
  apply first_here_app in Hfirst. rewrite (Hold x) in Hfirst by (by right).
  discriminate.
Qed.

(** Where [===] is equality, the distinct arrays are those without
    repetition. *)
Lemma distinct_NoDup l :
  (forall x y, x === y <-> x = y) -> NoDup l -> distinct strict_equals l.
Proof.
  intros Heq Hnd i j x y Hi Hj. rewrite Heq. split.
  - intros <-. by apply (NoDup_lookup l i j x).
  - intros <-. congruence.
Qed.

(** X1.  In the array that [mergeArrays] returns no value occurs twice:
    every value is [===] to itself, and no value is [===] to a later
    one. *)
Theorem mergeArrays_NoDup a b :
  NoDup (mergeArrays strict_equals a b)
  /\ Forall (fun x => x === x) (mergeArrays strict_equals a b)
  /\ (forall (i j : nat) x y,
        (i < j)%nat ->
        mergeArrays strict_equals a b !! i = Some x ->
        mergeArrays strict_equals a b !! j = Some y ->
        strict_equals x y = false).
Proof.
  rewrite mergeArrays_fresh.
  assert (Hself : Forall (fun x => x === x) (fresh (@nil A) (a ++ b))).
  { apply Forall_forall. intros x Hx.
    apply fresh_elem_of in Hx as [_ Hx]. by apply first_here_spec in Hx as [Hx _]. }
  split; [|split; [exact Hself | apply fresh_lookup]].
  apply NoDup_alt. intros i j x Hi Hj.
  assert (Hx : x === x).
  { rewrite Forall_forall in Hself. by apply Hself, (list_elem_of_lookup_2 _ i). }
  destruct (Nat.lt_trichotomy i j) as [Hlt | [-> | Hlt]]; [|done|].
  - rewrite (fresh_lookup _ _ i j x x Hlt Hi Hj) in Hx. discriminate.
  - rewrite (fresh_lookup _ _ j i x x Hlt Hj Hi) in Hx. discriminate.
Qed.

(** X3.  [mergeArrays] keeps the order of [a] followed by [b]; when the
    values of [a] are distinct the result starts with [a], and when those
    of [a] and [b] together are, the result is their concatenation. *)
Theorem mergeArrays_order a b :
  sublist (mergeArrays strict_equals a b) (a ++ b)
  /\ (distinct strict_equals a -> a `prefix_of` mergeArrays strict_equals a b)
  /\ (distinct strict_equals (a ++ b) -> mergeArrays strict_equals a b = a ++ b).
Proof.
  rewrite mergeArrays_fresh. split; [|split].
  - apply fresh_sublist.
  - intros Hd. exists (fresh a b).
    rewrite fresh_app. f_equal.
    apply fresh_all_new; [done|]. intros z x Hz. by apply elem_of_nil in Hz.
  - intros Hd. apply fresh_all_new; [done|].
    intros z x Hz. by apply elem_of_nil in Hz.
Qed.

(** [===] is symmetric and transitive; it is not reflexive, since
    not-a-number is not [===] to itself. *)
Hypothesis strict_equals_sym : forall x y, strict_equals x y = strict_equals y x.
Hypothesis strict_equals_trans : forall x y z, x === y -> y === z -> x === z.

(** A value of [suf] that is [===] to itself is [===] to a value before
    it or to one that is kept. *)
Lemma fresh_covers pre suf x :
  x ∈ suf -> x === x ->
  (exists z, z ∈ pre /\ z === x) \/ (exists y, y ∈ fresh pre suf /\ y === x).
Proof.
  assert (Hhead : forall pre y suf, y === y ->
            (exists z, z ∈ pre /\ z === y) \/ y ∈ fresh pre (y :: suf)).
  { clear x pre suf. intros pre y suf Hy. rewrite fresh_cons.
    destruct (forallb (fun z => negb (strict_equals z y)) pre) eqn:E.
    - right. rewrite Hy. simpl. left.
    - left. apply not_true_iff_false in E.
      rewrite forallb_forall in E.
      destruct (decide (Exists (fun z => z === y) pre)) as [Hex | Hno].
      + apply Exists_exists in Hex as (z & Hz & Hzy). by exists z.
      + destruct E. intros z Hz. apply negb_true_iff, not_true_is_false.
        intros Hzy. apply Hno, Exists_exists. exists z.
        split; [by apply list_elem_of_In | done]. }
  revert pre. induction suf as [| y0 suf IH]; intros pre Hin Hx.
  - by apply elem_of_nil in Hin.
  - apply elem_of_cons in Hin as [Heq | Hin].
    + subst y0. destruct (Hhead pre x suf Hx) as [Hold | Hkept]; [by left|].
      right. by exists x.
    + destruct (IH (pre ++ [y0]) Hin Hx) as [(z & Hz & Hzx) | (y & Hy & Hyx)].
      * apply elem_of_app in Hz as [Hz | Hz]; [left; by exists z|].
        apply list_elem_of_singleton in Hz. subst z.
        assert (Hy0 : y0 === y0).
        { apply (strict_equals_trans _ x); [done|]. by rewrite strict_equals_sym. }
        destruct (Hhead pre y0 suf Hy0) as [(z & Hz & Hzy) | Hkept].
        -- left. exists z. split; [done|]. by apply (strict_equals_trans _ y0).
        -- right. by exists y0.
      * right. exists y. split; [|done].
        rewrite fresh_cons, elem_of_app. by right.
Qed.

(** X2.  The values of [mergeArrays(a, b)] are values of [a] or of [b] that
    are [===] to themselves, and every such value of [a] or [b] is [===] to
    one of the result: but for the values that are not [===] to themselves,
    which are all dropped, none is lost and none is made up.  Where [===]
    is equality, the values of the result are those of [a] and of [b]. *)
Theorem elem_of_mergeArrays a b :
  (forall x, x ∈ mergeArrays strict_equals a b -> (x ∈ a \/ x ∈ b) /\ x === x)
  /\ (forall x, x ∈ a \/ x ∈ b -> x === x ->
        exists y, y ∈ mergeArrays strict_equals a b /\ y === x)
  /\ ((forall x y, x === y <-> x = y) ->
      forall x, x ∈ mergeArrays strict_equals a b <-> x ∈ a \/ x ∈ b).
Proof.
  rewrite mergeArrays_fresh.
  assert (Hsound : forall x, x ∈ fresh (@nil A) (a ++ b) -> (x ∈ a \/ x ∈ b) /\ x === x).
  { intros x Hx. apply fresh_elem_of in Hx as [Hin Hx].
    apply elem_of_app in Hin. by apply first_here_spec in Hx as [Hx _]. }
  assert (Hcomplete : forall x, x ∈ a \/ x ∈ b -> x === x ->
            exists y, y ∈ fresh (@nil A) (a ++ b) /\ y === x).
  { intros x Hin Hx. apply elem_of_app in Hin.
    destruct (fresh_covers [] (a ++ b) x Hin Hx) as [(z & Hz & _) | Hy]; [|done].
    by apply elem_of_nil in Hz. }
  split; [exact Hsound|]. split; [exact Hcomplete|].
  intros Heq x. split; [intros Hx; by apply Hsound in Hx as [Hx _]|].
  intros Hin. destruct (Hcomplete x Hin) as (y & Hy & Hyx); [by apply Heq|].
  apply Heq in Hyx. by subst y.
Qed.

(** X4.  Merging the result again with either argument changes nothing. *)
Theorem mergeArrays_idempotent a b :
  mergeArrays strict_equals (mergeArrays strict_equals a b) b
  = mergeArrays strict_equals a b
  /\ mergeArrays strict_equals (mergeArrays strict_equals a b) a
     = mergeArrays strict_equals a b.
Proof.
  set (r := mergeArrays strict_equals a b).
  assert (Hr : r = fresh (@nil A) (a ++ b)) by reflexivity.
  assert (Hd : distinct strict_equals r).
  { intros i j x y Hi Hj. rewrite Hr in Hi, Hj.
    assert (Hx : x === x).
    { apply list_elem_of_lookup_2, fresh_elem_of in Hi as [_ Hi].
      by apply first_here_spec in Hi as [Hi _]. }
    destruct (Nat.lt_trichotomy i j) as [Hlt | [-> | Hlt]].
    - rewrite (fresh_lookup _ _ i j x y Hlt Hi Hj). split; [done | lia].
    - assert (x = y) as <- by congruence. done.
    - rewrite strict_equals_sym, (fresh_lookup _ _ j i y x Hlt Hj Hi).
      split; [done | lia]. }
  assert (Hgen : forall c, (forall x, x ∈ c -> x ∈ a \/ x ∈ b) ->
            mergeArrays strict_equals r c = r).
  { intros c Hc. rewrite (mergeArrays_fresh r c), fresh_app.
    rewrite fresh_all_new, fresh_all_old.
    - by rewrite app_nil_r.
    - intros x Hx. simpl.
      destruct (strict_equals x x) eqn:Hxx; [|by rewrite andb_false_r].
      apply Hc, elem_of_app in Hx.
      destruct (fresh_covers [] (a ++ b) x Hx Hxx) as [(z & Hz & _) | (y & Hy & Hyx)].
      { by apply elem_of_nil in Hz. }
      rewrite andb_true_r. apply not_true_is_false. intros Hall.
      rewrite forallb_forall in Hall.
      rewrite <- Hr in Hy. apply list_elem_of_In, Hall in Hy.
      rewrite Hyx in Hy. discriminate.
    - exact Hd.
    - intros z x Hz. by apply elem_of_nil in Hz. }
  split; apply Hgen; tauto.
Qed.

End ArrayProperties.

(** [===] on numbers is symmetric and transitive. *)
Section NumberEquality.

Lemma number_strict_equals_sym (x y : number) :
  number_strict_equals x y = number_strict_equals y x.
Proof.
  destruct x as [| s | m e], y as [| t | m' e']; simpl; try done.
  - apply bool_decide_ext. split; congruence.
  - rewrite (Z.min_comm e' e). apply Z.eqb_sym.
Qed.

Lemma scaled_eq (m m' e e' d d' : Z) :
  d' <= d -> d <= e -> d <= e' ->
  m * 2 ^ (e - d) = m' * 2 ^ (e' - d) <-> m * 2 ^ (e - d') = m' * 2 ^ (e' - d').
Proof.
  intros Hd He He'.
  replace (e - d') with ((e - d) + (d - d')) by lia.
  replace (e' - d') with ((e' - d) + (d - d')) by lia.
  rewrite !Z.pow_add_r by lia.
  assert (0 < 2 ^ (d - d')) by (apply Z.pow_pos_nonneg; lia).
  nia.
Qed.

Lemma number_strict_equals_trans (x y z : number) :
  number_strict_equals x y = true -> number_strict_equals y z = true ->
  number_strict_equals x z = true.
Proof.
  destruct x as [| s1 | m1 e1], y as [| s2 | m2 e2], z as [| s3 | m3 e3];
    simpl; try done.
  - rewrite !bool_decide_eq_true. congruence.
  - rewrite !Z.eqb_eq. intros H12 H23.
    set (d := Z.min e1 (Z.min e2 e3)).
    apply (scaled_eq _ _ _ _ _ d) in H12; [|lia..].
    apply (scaled_eq _ _ _ _ _ d) in H23; [|lia..].
    apply (scaled_eq _ _ _ _ (Z.min e1 e3) d); [lia..|]. congruence.
Qed.

End NumberEquality.

Section ShuffleProperties.

Context {A : Type}.

Implicit Types (l array : list A) (draw : forall i : nat, fin (S i)).

Lemma swap_length l (i j : nat) : length (swap l i j) = length l.
Proof.
  unfold swap. destruct (l !! i), (l !! j); try done.
  by rewrite !length_insert.
Qed.

Lemma swap_lookup l (i j k : nat) :
  (i < length l)%nat -> (j < length l)%nat ->
  swap l i j !! k
  = l !! (if decide (k = i) then j else if decide (k = j) then i else k).
Proof.
  intros Hi Hj. unfold swap.
  destruct (lookup_lt_is_Some_2 l i Hi) as [x Hx].
  destruct (lookup_lt_is_Some_2 l j Hj) as [y Hy].
  rewrite Hx, Hy.
  destruct (decide (k = j)) as [-> | Hkj].
  - rewrite list_lookup_insert_eq by (by rewrite length_insert).
    destruct (decide (j = i)) as [-> | _]; congruence.
  - rewrite list_lookup_insert_ne by done.
    destruct (decide (k = i)) as [-> | Hki].
    + by rewrite list_lookup_insert_eq.
    + by rewrite list_lookup_insert_ne.
Qed.

(** Exchanging two elements of an array rearranges it. *)
Lemma swap_Permutation l (i j : nat) :
  (i < length l)%nat -> (j < length l)%nat -> swap l i j ≡ₚ l.
Proof.
  intros Hi Hj. apply Permutation_inj. split; [apply swap_length|].
  exists (fun k => if decide (k = i) then j else if decide (k = j) then i else k).
  split.
  - intros k1 k2 Heq. repeat case_decide; congruence.
  - intros k. by apply swap_lookup.
Qed.

Lemma shuffle_loop_Permutation draw (i : nat) l :
  (i < length l)%nat -> shuffle_loop draw i l ≡ₚ l.
Proof.
  revert l. induction i as [| i IH]; intros l Hi; [done|]. simpl.
  pose proof (fin_to_nat_lt (draw (S i))) as Hj.
  rewrite IH by (rewrite swap_length; lia).
  apply swap_Permutation; lia.
Qed.

(** X5.  [shuffle] returns a rearrangement of the array it is given,
    whatever the random draws are: the same elements, each as many times,
    and so the same length. *)
Theorem shuffle_Permutation draw l :
  shuffle draw l ≡ₚ l /\ length (shuffle draw l) = length l.
Proof.
  assert (Hperm : shuffle draw l ≡ₚ l).
  { unfold shuffle. destruct l as [| x l]; [done|].
    apply shuffle_loop_Permutation. simpl. lia. }
  split; [exact Hperm | by rewrite Hperm].
Qed.

Lemma fin_to_nat_draws (g : nat -> nat) (i : nat) :
  fin_to_nat (draws g i) = Nat.min (g i) i.
Proof. unfold draws. apply fin_to_nat_to_fin. Qed.

Lemma swap_lookup_other l (i j k : nat) :
  k <> i -> k <> j -> swap l i j !! k = l !! k.
Proof.
  intros Hi Hj. unfold swap. destruct (l !! i), (l !! j); try done.
  by rewrite !list_lookup_insert_ne.
Qed.

Lemma shuffle_loop_length draw (i : nat) l :
  length (shuffle_loop draw i l) = length l.
Proof.
  revert l. induction i as [| i IH]; intros l; [done|]. simpl.
  by rewrite IH, swap_length.
Qed.

(** The turns [i], ..., [1] leave the positions above [i] as they are. *)
Lemma shuffle_loop_lookup_above draw (i k : nat) l :
  (i < k)%nat -> shuffle_loop draw i l !! k = l !! k.
Proof.
  revert l. induction i as [| i IH]; intros l Hk; [done|]. simpl.
  pose proof (fin_to_nat_lt (draw (S i))).
  rewrite IH by lia. apply swap_lookup_other; lia.
Qed.

(** The loop reads the draws of its own turns only. *)
Lemma shuffle_loop_ext draw draw' (i : nat) l :
  (forall k, (1 <= k <= i)%nat -> fin_to_nat (draw k) = fin_to_nat (draw' k)) ->
  shuffle_loop draw i l = shuffle_loop draw' i l.
Proof.
  revert l. induction i as [| i IH]; intros l Hext; [done|]. simpl.
  rewrite (Hext (S i)) by lia. apply IH. intros k Hk. apply Hext. lia.
Qed.

Lemma take_swap l (n i j : nat) :
  (n <= length l)%nat -> (i < n)%nat -> (j < n)%nat ->
  take n (swap l i j) = swap (take n l) i j.
Proof.
  intros Hn Hi Hj. apply list_eq. intros k.
  destruct (decide (k < n)%nat) as [Hk | Hk].
  - rewrite lookup_take_lt by done.
    rewrite !swap_lookup by (rewrite ?length_take; lia).
    rewrite lookup_take_lt; [done|]. repeat case_decide; lia.
  - rewrite lookup_take_ge by lia.
    symmetry. apply lookup_ge_None. rewrite swap_length, length_take. lia.
Qed.

Lemma shuffle_loop_complete (i : nat) l target :
  length target = length l -> (i < length l)%nat ->
  (forall k, (i < k)%nat -> target !! k = l !! k) ->
  take (S i) target ≡ₚ take (S i) l ->
  exists g : nat -> nat, shuffle_loop (draws g) i l = target.
Proof.
  revert l. induction i as [| i IH]; intros l Hlen Hi Habove Hperm.
  - exists (fun _ => O). simpl. symmetry. apply list_eq. intros [| k].
    + destruct target as [| y target], l as [| x l]; simpl in *; try lia.
      apply Permutation_singleton_inj in Hperm. by subst.
    + apply Habove. lia.
  - destruct (lookup_lt_is_Some_2 target (S i) ltac:(lia)) as [y Hy].
    assert (Hin : y ∈ take (S (S i)) l).
    { rewrite <- Hperm. apply list_elem_of_lookup. exists (S i).
      by rewrite lookup_take_lt by lia. }
    apply list_elem_of_lookup in Hin as [j Hj].
    pose proof (lookup_lt_Some _ _ _ Hj) as Hjlt.
    rewrite length_take in Hjlt.
    rewrite lookup_take_lt in Hj by lia.
    set (l' := swap l (S i) j).
    assert (Hl'y : l' !! S i = Some y).
    { unfold l'. rewrite swap_lookup by lia. by rewrite decide_True. }
    destruct (IH l') as [g Hg].
    + unfold l'. by rewrite swap_length.
    + unfold l'. rewrite swap_length. lia.
    + intros k Hk. destruct (decide (k = S i)) as [-> | Hne]; [congruence|].
      unfold l'. rewrite swap_lookup_other by lia. apply Habove. lia.
    + assert (Hfull : take (S (S i)) target ≡ₚ take (S (S i)) l').
      { unfold l'. rewrite take_swap by lia.
        rewrite swap_Permutation by (rewrite length_take; lia). exact Hperm. }
      rewrite (take_S_r target (S i) y Hy), (take_S_r l' (S i) y Hl'y) in Hfull.
      by apply (inj (fun t => t ++ [y])) in Hfull.
    + exists (fun k => if decide (k = S i) then j else g k).
      simpl. rewrite fin_to_nat_draws, decide_True by done.
      replace (Nat.min j (S i)) with j by lia. fold l'.
      rewrite <- Hg. apply shuffle_loop_ext.
      intros k Hk. rewrite !fin_to_nat_draws. by rewrite decide_False by lia.
Qed.

(** X6.  Every rearrangement of the array is the outcome of [shuffle] for
    some sequence of draws. *)
Theorem shuffle_complete l target :
  target ≡ₚ l -> exists g : nat -> nat, shuffle (draws g) l = target.
Proof.
  intros Hperm. unfold shuffle.
  pose proof (Permutation_length Hperm) as Hlen.
  destruct l as [| x l].
  { apply Permutation_nil_r in Hperm. subst. by exists (fun _ => O). }
  apply shuffle_loop_complete; [done | simpl; lia | |].
  - intros k Hk. simpl in Hk, Hlen.
    rewrite (lookup_ge_None_2 target) by lia.
    by rewrite (lookup_ge_None_2 (x :: l)) by (simpl; lia).
  - replace (S (length (x :: l) - 1)) with (length (x :: l)) by (simpl; lia).
    rewrite firstn_all. rewrite <- Hlen. by rewrite firstn_all.
Qed.

Lemma shuffle_loop_injective (g g' : nat -> nat) (i : nat) l :
  NoDup l -> (i < length l)%nat ->
  shuffle_loop (draws g) i l = shuffle_loop (draws g') i l ->
  forall k, (1 <= k <= i)%nat -> Nat.min (g k) k = Nat.min (g' k) k.
Proof.
  revert l. induction i as [| i IH]; intros l Hnd Hi Heq k Hk; [lia|].
  simpl in Heq. rewrite !fin_to_nat_draws in Heq.
  set (j := Nat.min (g (S i)) (S i)) in *.
  set (j' := Nat.min (g' (S i)) (S i)) in *.
  assert (Hjj' : j = j').
  { assert (Hlook : l !! j = l !! j').
    { pose proof (f_equal (fun t => t !! S i) Heq) as Hat. simpl in Hat.
      rewrite !shuffle_loop_lookup_above in Hat by lia.
      rewrite !swap_lookup in Hat by lia.
      by rewrite !decide_True in Hat by done. }
    destruct (lookup_lt_is_Some_2 l j ltac:(lia)) as [x Hx].
    eapply NoDup_lookup; [exact Hnd | exact Hx | congruence]. }
  destruct (decide (k = S i)) as [-> | Hne]; [exact Hjj'|].
  rewrite <- Hjj' in Heq.
  apply (IH (swap l (S i) j)); [| rewrite swap_length; lia | done | lia].
  rewrite swap_Permutation by lia. done.
Qed.

(** X7.  On an array without repetition two runs of [shuffle] that give
    the same order made the same draws at every turn: each order comes from
    one sequence of draws only. *)
Theorem shuffle_injective (g g' : nat -> nat) l :
  NoDup l -> shuffle (draws g) l = shuffle (draws g') l ->
  forall k, (1 <= k < length l)%nat ->
    fin_to_nat (draws g k) = fin_to_nat (draws g' k).
Proof.
  intros Hnd Heq k Hk. rewrite !fin_to_nat_draws.
  apply (shuffle_loop_injective g g' (length l - 1) l); [done | lia | done | lia].
Qed.

End ShuffleProperties.

(** ** Global replacement *)

Section Replace.

Variable match_at : bool -> jsstring -> option (jsstring * jsstring).

(** The matches of the pattern are not empty. *)
Hypothesis match_consumes :
  forall at_start s replacement rest,
    match_at at_start s = Some (replacement, rest) -> (length rest < length s)%nat.

Lemma replace_all_fuel (fuel fuel' : nat) (at_start : bool) (s : jsstring) :
  (length s <= fuel)%nat -> (length s <= fuel')%nat ->
  replace_all match_at fuel at_start s = replace_all match_at fuel' at_start s.
Proof.
  revert fuel' at_start s. induction fuel as [| fuel IH]; intros fuel' b s Hf Hf'.
  - destruct s; [|simpl in Hf; lia]. by destruct fuel'.
  - destruct s as [| c rest]; [by destruct fuel'|].
    destruct fuel' as [| fuel']; [simpl in Hf'; lia|].
    simpl in *. destruct (match_at b (c :: rest)) as [[r rest'] |] eqn:E.
    + apply match_consumes in E. simpl in E. f_equal. apply IH; lia.
    + f_equal. apply IH; lia.
Qed.

(** The search, position by position. *)
Lemma replace_all_cons (at_start : bool) (c : Z) (rest : jsstring) :
  replace_all match_at (length (c :: rest)) at_start (c :: rest)
  = match match_at at_start (c :: rest) with
    | Some (replacement, rest') =>
        replacement ++ replace_all match_at (length rest') false rest'
    | None => c :: replace_all match_at (length rest) false rest
    end.
Proof.
  simpl. destruct (match_at at_start (c :: rest)) as [[r rest'] |] eqn:E; [|done].
  apply match_consumes in E. simpl in E. f_equal. apply replace_all_fuel; lia.
Qed.

(** Where no character starts a match, nothing is replaced. *)
Lemma replace_all_no_match (at_start : bool) (s : jsstring) :
  (forall pre c rest,
     s = pre ++ c :: rest ->
     match_at (at_start && bool_decide (pre = [])) (c :: rest) = None) ->
  replace_all match_at (length s) at_start s = s.
Proof.
  revert at_start. induction s as [| c s IH]; intros b Hno; [done|].
  rewrite replace_all_cons.
  pose proof (Hno [] c s eq_refl) as Hhead.
  rewrite bool_decide_eq_true_2, andb_true_r in Hhead by done.
  rewrite Hhead. f_equal.
  apply IH. intros pre c' rest ->.
  pose proof (Hno (c :: pre) c' rest eq_refl) as Hin.
  by rewrite bool_decide_eq_false_2, andb_false_r in Hin by done.
Qed.

(** A property of the replacements and of the characters that start no
    match is a property of the whole result. *)
Lemma replace_all_Forall (P : Z -> Prop) (at_start : bool) (s : jsstring) :
  (forall b t replacement rest,
     match_at b t = Some (replacement, rest) -> Forall P replacement) ->
  (forall b c rest, match_at b (c :: rest) = None -> P c) ->
  Forall P (replace_all match_at (length s) at_start s).
Proof.
  intros Hrep Hkeep.
  remember (length s) as n eqn:Hn. revert at_start s Hn.
  induction n as [n IH] using lt_wf_ind. intros b s ->.
  destruct s as [| c rest]; [constructor|].
  rewrite replace_all_cons.
  destruct (match_at b (c :: rest)) as [[r rest'] |] eqn:E.
  - apply Forall_app. split; [by eapply Hrep|].
    apply match_consumes in E. by eapply IH.
  - constructor; [by eapply Hkeep|]. eapply IH; [|done]. simpl. lia.
Qed.

(** A property of the characters of the string that the replacements keep
    is a property of the result. *)
Lemma replace_all_Forall_keep (P : Z -> Prop) (at_start : bool) (s : jsstring) :
  (forall b t replacement rest,
     Forall P t -> match_at b t = Some (replacement, rest) ->
     Forall P replacement /\ Forall P rest) ->
  Forall P s ->
  Forall P (replace_all match_at (length s) at_start s).
Proof.
  intros Hrep.
  remember (length s) as n eqn:Hn. revert at_start s Hn.
  induction n as [n IH] using lt_wf_ind. intros b s -> Hs.
  destruct s as [| c rest]; [constructor|].
  rewrite replace_all_cons.
  destruct (match_at b (c :: rest)) as [[r rest'] |] eqn:E.
  - destruct (Hrep _ _ _ _ Hs E) as [Hr Hrest'].
    apply Forall_app. split; [done|].
    apply match_consumes in E. by eapply IH.
  - apply Forall_cons in Hs as [Hc Hrest].
    constructor; [done|]. eapply IH; [|done..]. simpl. lia.
Qed.

(** When no replacement is longer than what it replaces, the result is
    not longer than the string. *)
Lemma replace_all_length (at_start : bool) (s : jsstring) :
  (forall b t replacement rest,
     match_at b t = Some (replacement, rest) ->
     (length replacement + length rest <= length t)%nat) ->
  (length (replace_all match_at (length s) at_start s) <= length s)%nat.
Proof.
  intros Hshort.
  remember (length s) as n eqn:Hn. revert at_start s Hn.
  induction n as [n IH] using lt_wf_ind. intros b s ->.
  destruct s as [| c rest]; [done|].
  rewrite replace_all_cons.
  destruct (match_at b (c :: rest)) as [[r rest'] |] eqn:E.
  - pose proof (Hshort _ _ _ _ E) as Hs. pose proof (match_consumes _ _ _ _ E) as Hc.
    rewrite length_app.
    specialize (IH (length rest') Hc false rest' eq_refl). lia.
  - simpl. specialize (IH (length rest) ltac:(simpl; lia) false rest eq_refl). lia.
Qed.

End Replace.

(** ** Names *)

Section CamelCase.

Implicit Types (s rest word : jsstring) (c : Z).

Lemma separators_then_word_consumes s w rest :
  separators_then_word s = Some (w, rest) -> (S (length rest) < length s)%nat.
Proof.
  revert w rest. induction s as [| c s IH]; intros w rest; simpl; [done|].
  destruct (is_separator c); [|done].
  destruct (separators_then_word s) as [[w' rest'] |] eqn:E.
  - intros [= -> ->]. specialize (IH _ _ eq_refl). lia.
  - destruct s as [| d s']; [done|].
    destruct (is_word d); [|done]. intros [= -> ->]. simpl. lia.
Qed.

Lemma camel_match_cons (at_start : bool) c rest :
  camel_match at_start (c :: rest)
  = if at_start && is_upper c then Some ([lower_unit c], rest)
    else match separators_then_word (c :: rest) with
         | Some (w, rest') => Some ([upper_unit w], rest')
         | None => None
         end.
Proof. reflexivity. Qed.

Lemma separators_then_word_cons c rest :
  separators_then_word (c :: rest)
  = if is_separator c then
      match separators_then_word rest with
      | Some m => Some m
      | None =>
          match rest with
          | w :: rest' => if is_word w then Some (w, rest') else None
          | [] => None
          end
      end
    else None.
Proof. reflexivity. Qed.

Lemma camel_match_consumes at_start s replacement rest :
  camel_match at_start s = Some (replacement, rest) -> (length rest < length s)%nat.
Proof.
  destruct s as [| c s]; [done|]. rewrite camel_match_cons.
  destruct (at_start && is_upper c).
  - intros [= <- <-]. simpl. lia.
  - destruct (separators_then_word (c :: s)) as [[w rest'] |] eqn:E; [|done].
    intros [= <- <-]. apply separators_then_word_consumes in E. lia.
Qed.

Lemma kebab_match_consumes at_start s replacement rest :
  kebab_match at_start s = Some (replacement, rest) -> (length rest < length s)%nat.
Proof.
  destruct s as [| c [| d s]]; simpl; try done.
  destruct ((is_lower c || is_digit c) && is_upper d); [|done].
  intros [= <- <-]. lia.
Qed.

(** X8.  [toCamelCase] never returns a longer string; and a string without
    white space, hyphen or underscore that does not start with a capital
    letter is returned as it is. *)
Theorem toCamelCase_plain s :
  (length (toCamelCase s) <= length s)%nat
  /\ (Forall (fun c => is_separator c = false) s ->
      (forall c, head s = Some c -> is_upper c = false) ->
      toCamelCase s = s).
Proof.
  unfold toCamelCase, replace. split.
  - apply (replace_all_length camel_match camel_match_consumes).
    intros b [| c t] r rest; [done|]. rewrite camel_match_cons.
    destruct (b && is_upper c).
    + intros [= <- <-]. simpl. lia.
    + destruct (separators_then_word (c :: t)) as [[w rest'] |] eqn:E; [|done].
      intros [= <- <-]. apply separators_then_word_consumes in E. simpl in *. lia.
  - intros Hsep Hhead.
    destruct s as [| c s]; [done|].
    rewrite (replace_all_cons camel_match camel_match_consumes).
    apply Forall_cons in Hsep as [Hc Hsep].
    rewrite camel_match_cons, separators_then_word_cons.
    rewrite (Hhead c eq_refl), andb_false_r, Hc. f_equal.
    apply (replace_all_no_match camel_match camel_match_consumes).
    intros pre c' rest ->.
    apply Forall_app in Hsep as [_ Hsep]. apply Forall_cons in Hsep as [Hc' _].
    by rewrite camel_match_cons, separators_then_word_cons, Hc'.
Qed.

End CamelCase.

(** The character classes as comparisons of code units. *)
Ltac unfold_classes :=
  unfold is_word, is_separator, lower_unit, upper_unit in *;
  unfold is_space, is_upper, is_lower, is_digit, is_ascii, is_line_terminator,
    is_gap in *.

Section CharacterClasses.

Implicit Types c : Z.

Lemma lowdig_classes c :
  is_lower c || is_digit c = true ->
  is_upper c = false /\ is_separator c = false /\ is_word c = true
  /\ is_ascii c = true /\ lower_unit c = c.
Proof.
  unfold_classes.
  intros H. repeat split; try lia.
  destruct ((65 <=? c) && (c <=? 90)) eqn:E; lia.
Qed.

Lemma lower_classes c :
  is_lower c = true ->
  is_upper (upper_unit c) = true /\ is_ascii (upper_unit c) = true
  /\ lower_unit (upper_unit c) = c /\ is_lower c || is_digit c = true.
Proof.
  unfold_classes.
  intros H. rewrite H.
  assert (E : (65 <=? c - 32) && (c - 32 <=? 90) = true) by lia.
  rewrite E. repeat split; lia.
Qed.

Lemma upper_unit_lowdig c :
  is_lower c || is_digit c = true ->
  is_word c = true /\ is_ascii (upper_unit c) = true
  /\ (is_lower c = false -> upper_unit c = c).
Proof.
  unfold_classes.
  intros H. destruct ((97 <=? c) && (c <=? 122)) eqn:E; repeat split; lia.
Qed.

Lemma lower_unit_not_upper c : is_upper (lower_unit c) = false.
Proof.
  unfold_classes.
  destruct ((65 <=? c) && (c <=? 90)) eqn:E; lia.
Qed.

Lemma lower_unit_ascii c : is_ascii c = true -> is_ascii (lower_unit c) = true.
Proof.
  unfold_classes.
  destruct ((65 <=? c) && (c <=? 90)) eqn:E; lia.
Qed.

Lemma lower_unit_fixed c : is_upper c = false -> lower_unit c = c.
Proof. unfold lower_unit. by intros ->. Qed.

End CharacterClasses.

Section NameCases.

Variable toUpperCase toLowerCase : jsstring -> jsstring.

(** On a string of ASCII characters the case mappings of the runtime map
    each letter and leave the other characters. *)
Hypothesis toLowerCase_ascii :
  forall s, Forall (fun c => is_ascii c = true) s -> toLowerCase s = lower_unit <$> s.
Hypothesis toUpperCase_ascii :
  forall s, Forall (fun c => is_ascii c = true) s -> toUpperCase s = upper_unit <$> s.

Implicit Types (s rest word first : jsstring) (words others : list jsstring) (c : Z).

Local Abbreviation lowdig := (fun c => is_lower c || is_digit c = true).
Local Abbreviation scanC b s := (replace_all camel_match (length s) b s).
Local Abbreviation scanK b s := (replace_all kebab_match (length s) b s).

(** *** From kebab case *)

Lemma scanC_word (b : bool) word rest :
  Forall lowdig word ->
  scanC b (word ++ rest) = word ++ scanC (b && bool_decide (word = [])) rest.
Proof.
  revert b. induction word as [| c word IH]; intros b Hw.
  - simpl app. by rewrite andb_true_r.
  - apply Forall_cons in Hw as [Hc Hw].
    destruct (lowdig_classes c Hc) as (Hup & Hsep & _).
    rewrite <- app_comm_cons, (replace_all_cons camel_match camel_match_consumes).
    rewrite camel_match_cons, separators_then_word_cons, Hup, Hsep, andb_false_r.
    rewrite (IH false Hw). by rewrite andb_false_r.
Qed.

Lemma scanC_hyphen c rest :
  lowdig c -> scanC false (45 :: c :: rest) = upper_unit c :: scanC false rest.
Proof.
  intros Hc. destruct (lowdig_classes c Hc) as (_ & Hsep & Hword & _).
  rewrite (replace_all_cons camel_match camel_match_consumes).
  rewrite camel_match_cons, !separators_then_word_cons, Hsep, Hword.
  reflexivity.
Qed.

Lemma scanC_others others :
  Forall (fun word => word <> [] /\ Forall lowdig word) others ->
  scanC false (concat (map (fun word => 45 :: word) others))
  = concat (map capitalise others).
Proof.
  induction others as [| word others IH]; intros Hw; [done|].
  apply Forall_cons in Hw as [[Hne Hword] Hw].
  destruct word as [| c word]; [done|].
  apply Forall_cons in Hword as [Hc Hword].
  rewrite !map_cons, !concat_cons. cbn [capitalise].
  rewrite <- !app_comm_cons, scanC_hyphen by done. f_equal.
  rewrite scanC_word by done.
  by rewrite andb_false_l, IH by done.
Qed.

Lemma camel_of_kebab words :
  Forall (fun word => word <> [] /\ Forall lowdig word) words ->
  toCamelCase (kebab_name words) = camel_name words.
Proof.
  intros Hw. destruct words as [| first others]; [done|].
  apply Forall_cons in Hw as [[Hne Hfirst] Hw].
  unfold toCamelCase, replace, kebab_name, camel_name.
  rewrite scanC_word by done.
  rewrite bool_decide_eq_false_2, andb_false_r by done.
  by rewrite scanC_others.
Qed.

Lemma pascal_of_kebab words :
  Forall (fun word => word <> [] /\ Forall lowdig word) words ->
  toPascalCase toUpperCase (kebab_name words) = pascal_name words.
Proof.
  intros Hw. unfold toPascalCase. rewrite camel_of_kebab by done.
  destruct words as [| first others].
  - cbn. by rewrite toUpperCase_ascii.
  - apply Forall_cons in Hw as [[Hne Hfirst] Hw].
    destruct first as [| c first]; [done|].
    apply Forall_cons in Hfirst as [Hc Hfirst].
    cbn. rewrite toUpperCase_ascii.
    + reflexivity.
    + constructor; [|constructor]. by destruct (upper_unit_lowdig c Hc) as (_ & _ & _); destruct (lowdig_classes c Hc) as (_ & _ & _ & ? & _).
Qed.

(** X9.  A name in kebab case, made of words of lower-case letters and
    digits joined by single hyphens, becomes the camel-case name of the same
    words under [toCamelCase] and their Pascal-case name under
    [toPascalCase]. *)
Theorem toCamelCase_kebab_name words :
  Forall (fun word => word <> [] /\ Forall lowdig word) words ->
  toCamelCase (kebab_name words) = camel_name words
  /\ toPascalCase toUpperCase (kebab_name words) = pascal_name words.
Proof. intros Hw. split; [by apply camel_of_kebab | by apply pascal_of_kebab]. Qed.

(** *** To kebab case *)

Lemma kebab_match_cons (b : bool) c d rest :
  kebab_match b (c :: d :: rest)
  = if (is_lower c || is_digit c) && is_upper d then Some ([c; 45; d], rest) else None.
Proof. reflexivity. Qed.

Lemma scanK_flag (b : bool) s : scanK b s = scanK false s.
Proof. by destruct s. Qed.

(** Inside a word, and at its end when no capital letter follows, no
    hyphen is put. *)
Lemma scanK_word (b : bool) word rest :
  Forall lowdig word ->
  (forall d, head rest = Some d -> is_upper d = false) ->
  scanK b (word ++ rest) = word ++ scanK false rest.
Proof.
  revert b. induction word as [| c word IH]; intros b Hw Hrest.
  - apply scanK_flag.
  - apply Forall_cons in Hw as [Hc Hw].
    rewrite <- app_comm_cons, (replace_all_cons kebab_match kebab_match_consumes).
    rewrite (IH false Hw Hrest).
    destruct (word ++ rest) as [| d t] eqn:E; [done|].
    rewrite kebab_match_cons.
    assert (Hd : is_upper d = false).
    { destruct word as [| d' word']; simpl in E.
      - subst rest. by apply Hrest.
      - injection E as -> _. apply Forall_cons in Hw as [Hd _].
        by destruct (lowdig_classes d Hd). }
    by rewrite Hd, andb_false_r.
Qed.

(** A hyphen is put between a word and the capital letter that follows. *)
Lemma scanK_boundary (b : bool) word c d rest :
  Forall lowdig word -> lowdig c -> is_upper d = true ->
  scanK b (word ++ c :: d :: rest) = word ++ c :: 45 :: d :: scanK false rest.
Proof.
  revert b. induction word as [| c0 word IH]; intros b Hw Hc Hd.
  - simpl app. rewrite (replace_all_cons kebab_match kebab_match_consumes).
    by rewrite kebab_match_cons, Hc, Hd.
  - apply Forall_cons in Hw as [Hc0 Hw].
    rewrite <- app_comm_cons, (replace_all_cons kebab_match kebab_match_consumes).
    rewrite (IH false Hw Hc Hd).
    destruct (word ++ c :: d :: rest) as [| e t] eqn:E.
    { by destruct word. }
    rewrite kebab_match_cons.
    assert (He : is_upper e = false).
    { destruct word as [| e' word']; simpl in E; injection E as <- _.
      - by destruct (lowdig_classes c Hc).
      - apply Forall_cons in Hw as [He _]. by destruct (lowdig_classes e' He). }
    by rewrite He, andb_false_r.
Qed.

Local Abbreviation starts_lower :=
  (fun word => exists c t, word = c :: t /\ is_lower c = true /\ Forall lowdig t).
Local Abbreviation inner_long :=
  (fun others : list jsstring =>
     forall (i : nat) word,
       others !! i = Some word -> (S i < length others)%nat -> (2 <= length word)%nat).

Lemma scanK_words (b : bool) word others :
  Forall lowdig word ->
  Forall starts_lower others ->
  inner_long others ->
  (others <> [] -> word <> []) ->
  scanK b (word ++ concat (map capitalise others))
  = word ++ concat (map (fun w => 45 :: capitalise w) others).
Proof.
  revert b word. induction others as [| w1 others IH]; intros b word Hw Ho Hlong Hne.
  - cbn [map concat]. rewrite scanK_word by done. by destruct b.
  - apply Forall_cons in Ho as [(c1 & t1 & -> & Hc1 & Ht1) Ho].
    destruct (lower_classes c1 Hc1) as (Hup & _).
    destruct (decide (word = [])) as [-> | Hword]; [by destruct Hne|].
    destruct (exists_last Hword) as (word' & c & ->).
    apply Forall_app in Hw as [Hw' Hc]. apply Forall_cons in Hc as [Hc _].
    rewrite !map_cons, !concat_cons. cbn [capitalise].
    rewrite <- !app_assoc. cbn [app].
    rewrite scanK_boundary by done.
    rewrite IH; [done | done | done | |].
    + intros i w Hi Hlt. apply (Hlong (S i) w); [done | simpl; lia].
    + intros Hothers. specialize (Hlong O (c1 :: t1) eq_refl).
      destruct others; [done|]. simpl in Hlong.
      destruct t1; [exfalso; simpl in Hlong; lia | done].
Qed.

Lemma lower_lowdig word : Forall lowdig word -> lower_unit <$> word = word.
Proof.
  induction 1 as [| c word Hc _ IH]; [done|]. cbn.
  destruct (lowdig_classes c Hc) as (_ & _ & _ & _ & ->). by rewrite IH.
Qed.

Lemma ascii_lowdig word :
  Forall lowdig word -> Forall (fun c => is_ascii c = true) word.
Proof.
  intros Hw. eapply Forall_impl; [exact Hw|].
  intros c Hc. by destruct (lowdig_classes c Hc) as (_ & _ & _ & ? & _).
Qed.

Lemma lower_hyphenated others :
  Forall starts_lower others ->
  Forall (fun c => is_ascii c = true)
    (concat (map (fun w => 45 :: capitalise w) others))
  /\ lower_unit <$> concat (map (fun w => 45 :: capitalise w) others)
     = concat (map (fun w => 45 :: w) others).
Proof.
  induction 1 as [| w others (c & t & -> & Hc & Ht) _ [IHa IHl]]; [by split|].
  destruct (lower_classes c Hc) as (Hup & Hasc & Hlow & _).
  rewrite !map_cons, !concat_cons. cbn [capitalise]. split.
  - rewrite <- !app_comm_cons. constructor; [done|]. constructor; [done|].
    apply Forall_app. split; [by apply ascii_lowdig | done].
  - rewrite fmap_app, IHl. cbn. by rewrite Hlow, lower_lowdig.
Qed.

Lemma kebab_of_camel first others :
  first <> [] -> Forall lowdig first ->
  Forall starts_lower others -> inner_long others ->
  toKebabCase toLowerCase (camel_name (first :: others)) = kebab_name (first :: others).
Proof.
  intros Hne Hfirst Ho Hlong. unfold toKebabCase, replace, camel_name, kebab_name.
  rewrite scanK_words by done.
  destruct (lower_hyphenated others Ho) as [Hasc Hlow].
  rewrite toLowerCase_ascii by (apply Forall_app; split; [by apply ascii_lowdig | done]).
  by rewrite fmap_app, Hlow, lower_lowdig.
Qed.

Lemma kebab_of_pascal words :
  Forall starts_lower words -> inner_long words ->
  toKebabCase toLowerCase (pascal_name words) = kebab_name words.
Proof.
  intros Hw Hlong. destruct words as [| first others].
  { unfold toKebabCase. cbn. by rewrite toLowerCase_ascii. }
  pose proof Hw as Hw0.
  apply Forall_cons in Hw as [(c & t & -> & Hc & Ht) Ho].
  destruct (lower_classes c Hc) as (Hup & Hasc & Hlow & Hcl).
  unfold toKebabCase, replace, pascal_name, kebab_name.
  rewrite map_cons, concat_cons. cbn [capitalise]. rewrite <- app_comm_cons.
  rewrite (replace_all_cons kebab_match kebab_match_consumes).
  assert (Hhead : kebab_match true (upper_unit c :: t ++ concat (map capitalise others))
                  = None).
  { destruct (t ++ concat (map capitalise others)) as [| d r]; [done|].
    rewrite kebab_match_cons.
    assert (E : is_lower (upper_unit c) || is_digit (upper_unit c) = false)
      by (unfold_classes; lia).
    by rewrite E. }
  rewrite Hhead, scanK_words; [| done | done | |].
  - destruct (lower_hyphenated others Ho) as [Hasc' Hlow'].
    rewrite toLowerCase_ascii.
    + cbn. by rewrite Hlow, fmap_app, Hlow', lower_lowdig.
    + constructor; [done|]. apply Forall_app. split; [by apply ascii_lowdig | done].
  - intros i w Hi Hlt. apply (Hlong (S i) w); [done | simpl; lia].
  - intros Hothers. specialize (Hlong O (c :: t) eq_refl).
    destruct others; [done|]. simpl in Hlong. destruct t; [exfalso; simpl in Hlong; lia | done].
Qed.

(** X10.  Round trip through camel case.  For a kebab-case name whose
    words after the first start with a letter, and have two characters at
    least when another word follows, [toKebabCase] undoes [toCamelCase]. *)
Theorem toKebabCase_toCamelCase first others :
  first <> [] -> Forall lowdig first ->
  Forall starts_lower others -> inner_long others ->
  toKebabCase toLowerCase (toCamelCase (kebab_name (first :: others)))
  = kebab_name (first :: others).
Proof.
  intros Hne Hfirst Ho Hlong.
  rewrite camel_of_kebab; [by apply kebab_of_camel|].
  constructor; [done|].
  eapply Forall_impl; [exact Ho|].
  intros w (c & t & -> & Hc & Ht). split; [done|].
  constructor; [|done]. by destruct (lower_classes c Hc) as (_ & _ & _ & ?).
Qed.

(** X11.  Round trip through Pascal case.  For a kebab-case name whose
    words all start with a letter, and have two characters at least when
    another word follows, [toKebabCase] undoes [toPascalCase]. *)
Theorem toKebabCase_toPascalCase words :
  Forall starts_lower words -> inner_long words ->
  toKebabCase toLowerCase (toPascalCase toUpperCase (kebab_name words))
  = kebab_name words.
Proof.
  intros Hw Hlong.
  rewrite pascal_of_kebab; [by apply kebab_of_pascal|].
  eapply Forall_impl; [exact Hw|].
  intros w (c & t & -> & Hc & Ht). split; [done|].
  constructor; [|done]. by destruct (lower_classes c Hc) as (_ & _ & _ & ?).
Qed.

(** X12.  On a string of ASCII characters [toKebabCase] leaves no capital
    letter, and applying it twice is applying it once. *)
Theorem toKebabCase_ascii s :
  Forall (fun c => is_ascii c = true) s ->
  Forall (fun c => is_upper c = false) (toKebabCase toLowerCase s)
  /\ toKebabCase toLowerCase (toKebabCase toLowerCase s) = toKebabCase toLowerCase s.
Proof.
  intros Hs. unfold toKebabCase.
  assert (Hh : Forall (fun c => is_ascii c = true) (replace kebab_match s)).
  { apply (replace_all_Forall_keep kebab_match kebab_match_consumes); [|done].
    intros b [| c [| d t]] r rest Ht; try done.
    rewrite kebab_match_cons.
    destruct ((is_lower c || is_digit c) && is_upper d); [|done].
    intros [= <- <-].
    apply Forall_cons in Ht as [Hc Ht]. apply Forall_cons in Ht as [Hd Ht].
    split; [|done]. by repeat constructor. }
  rewrite (toLowerCase_ascii _ Hh).
  assert (Hno : Forall (fun c => is_upper c = false) (lower_unit <$> replace kebab_match s)).
  { apply Forall_fmap, Forall_true. intros c. apply lower_unit_not_upper. }
  split; [exact Hno|].
  assert (Hfix : replace kebab_match (lower_unit <$> replace kebab_match s)
                 = lower_unit <$> replace kebab_match s).
  { apply (replace_all_no_match kebab_match kebab_match_consumes).
    intros pre c rest E. destruct rest as [| d rest']; [done|].
    rewrite kebab_match_cons.
    rewrite E in Hno. apply Forall_app in Hno as [_ Hno].
    apply Forall_cons in Hno as [_ Hno]. apply Forall_cons in Hno as [Hd _].
    by rewrite Hd, andb_false_r. }
  rewrite Hfix, toLowerCase_ascii.
  - rewrite <- list_fmap_compose. apply list_fmap_ext. intros _ c _. simpl.
    apply lower_unit_fixed, lower_unit_not_upper.
  - apply Forall_fmap. eapply Forall_impl; [exact Hh|]. intros c. apply lower_unit_ascii.
Qed.

End NameCases.

(** ** [minifySvg] *)

Section Minify.

Implicit Types (s rest body : jsstring) (c : Z).

Lemma gap_then_lt_length s rest :
  gap_then_lt s = Some rest -> (S (S (length rest)) <= length s)%nat.
Proof.
  revert rest. induction s as [| c s IH]; intros rest; simpl; [done|].
  destruct (is_gap c); [|done].
  destruct (gap_then_lt s) as [rest' |] eqn:E.
  - intros [= ->]. specialize (IH _ eq_refl). lia.
  - destruct s as [| d s']; [done|].
    destruct (d =? 60); [|done]. intros [= ->]. simpl. lia.
Qed.

Lemma gap_match_cons (b : bool) c rest :
  gap_match b (c :: rest)
  = if c =? 62 then
      match gap_then_lt rest with
      | Some rest' => Some ([62; 60], rest')
      | None => None
      end
    else None.
Proof. reflexivity. Qed.

Lemma gap_match_length (b : bool) s replacement rest :
  gap_match b s = Some (replacement, rest) ->
  (length replacement + length rest < length s)%nat.
Proof.
  destruct s as [| c s]; [done|]. rewrite gap_match_cons.
  destruct (c =? 62); [|done].
  destruct (gap_then_lt s) as [rest' |] eqn:E; [|done].
  intros [= <- <-]. apply gap_then_lt_length in E. simpl. lia.
Qed.

Lemma gap_match_consumes (b : bool) s replacement rest :
  gap_match b s = Some (replacement, rest) -> (length rest < length s)%nat.
Proof. intros E. apply gap_match_length in E. lia. Qed.

(** A tag that is matched is a piece of the string, without line
    terminator. *)
Lemma tag_end_spec s body rest :
  tag_end s = Some (body, rest) ->
  s = body ++ rest /\ body <> []
  /\ Forall (fun c => is_line_terminator c = false) body.
Proof.
  revert body rest. induction s as [| c s IH]; intros body rest; simpl; [done|].
  destruct (c =? 62) eqn:E62.
  - intros [= <- <-]. repeat split; [done|]. constructor; [|constructor].
    unfold_classes. lia.
  - destruct (is_line_terminator c) eqn:Elt; [done|].
    destruct (tag_end s) as [[body' rest'] |]; [|done].
    intros [= <- <-]. destruct (IH _ _ eq_refl) as (-> & _ & Hbody).
    repeat split; [done|]. by constructor.
Qed.

Lemma drop_while_suffix (p : Z -> bool) s : exists pre, s = pre ++ drop_while p s.
Proof.
  induction s as [| c s [pre IH]]; [by exists []|]. simpl.
  destruct (p c); [|by exists []].
  exists (c :: pre). simpl. by f_equal.
Qed.

Lemma drop_while_length (p : Z -> bool) s : (length (drop_while p s) <= length s)%nat.
Proof.
  destruct (drop_while_suffix p s) as [pre E].
  rewrite E at 2. rewrite length_app. lia.
Qed.

Lemma drop_while_head (p : Z -> bool) s c :
  head (drop_while p s) = Some c -> p c = false.
Proof.
  induction s as [| d s IH]; simpl; [done|].
  destruct (p d) eqn:E; [done|]. simpl. by intros [= <-].
Qed.

Lemma drop_while_all (p : Z -> bool) s :
  Forall (fun c => p c = true) s -> drop_while p s = [].
Proof. induction 1 as [| c s Hc _ IH]; [done|]. simpl. by rewrite Hc. Qed.

Lemma drop_while_id (p : Z -> bool) s :
  (forall c, head s = Some c -> p c = false) -> drop_while p s = s.
Proof. destruct s as [| c s]; [done|]. intros H. simpl. by rewrite (H c eq_refl). Qed.

Lemma collapse_match_cons (b : bool) c rest :
  collapse_match b (c :: rest)
  = if c =? 60 then
      match tag_end rest with
      | Some (body, rest') => Some (c :: body, rest')
      | None => None
      end
    else if is_space c then Some ([32], drop_while is_space rest)
    else None.
Proof. reflexivity. Qed.

Lemma collapse_match_length (b : bool) s replacement rest :
  collapse_match b s = Some (replacement, rest) ->
  (length rest < length s)%nat /\ (length replacement + length rest <= length s)%nat.
Proof.
  destruct s as [| c s]; [done|]. rewrite collapse_match_cons.
  destruct (c =? 60).
  - destruct (tag_end s) as [[body rest'] |] eqn:E; [|done].
    intros [= <- <-]. apply tag_end_spec in E as (-> & Hne & _).
    simpl. rewrite length_app. destruct body; [done|]. simpl. lia.
  - destruct (is_space c); [|done]. intros [= <- <-].
    pose proof (drop_while_length is_space s). simpl. lia.
Qed.

Lemma collapse_match_consumes (b : bool) s replacement rest :
  collapse_match b s = Some (replacement, rest) -> (length rest < length s)%nat.
Proof. intros E. by apply collapse_match_length in E as [? _]. Qed.

Lemma head_rev_last s : head (rev s) = last s.
Proof.
  induction s as [| c s _] using rev_ind; [done|].
  by rewrite rev_app_distr, last_snoc.
Qed.

Lemma last_rev_head s : last (rev s) = head s.
Proof. destruct s as [| c s]; [done|]. simpl. by rewrite last_snoc. Qed.

(** [trim] cuts both ends of the string. *)
Lemma trim_middle s : exists pre post, s = pre ++ trim s ++ post.
Proof.
  unfold trim.
  destruct (drop_while_suffix is_space s) as [pre1 E1].
  destruct (drop_while_suffix is_space (rev (drop_while is_space s))) as [pre2 E2].
  apply (f_equal (@rev Z)) in E2. rewrite rev_involutive, rev_app_distr in E2.
  exists pre1, (rev pre2). by rewrite <- E2.
Qed.

Lemma trim_ends s :
  (forall c, head (trim s) = Some c -> is_space c = false)
  /\ (forall c, last (trim s) = Some c -> is_space c = false).
Proof.
  unfold trim. set (t := drop_while is_space s).
  assert (Ht : forall c, head t = Some c -> is_space c = false)
    by (intros c; apply drop_while_head).
  set (u := drop_while is_space (rev t)).
  assert (Hu : forall c, head u = Some c -> is_space c = false)
    by (intros c; apply drop_while_head).
  split.
  - intros c Hc. rewrite head_rev_last in Hc.
    destruct (drop_while_suffix is_space (rev t)) as [pre E]. fold u in E.
    apply Ht. rewrite <- last_rev_head, E.
    destruct u as [| d u'] using rev_ind; [done|].
    rewrite last_snoc in Hc. by rewrite app_assoc, last_snoc.
  - intros c Hc. apply Hu. by rewrite <- last_rev_head.
Qed.

Lemma trim_id s :
  (forall c, head s = Some c -> is_space c = false) ->
  (forall c, last s = Some c -> is_space c = false) ->
  trim s = s.
Proof.
  intros Hh Hl. unfold trim. rewrite (drop_while_id _ s Hh).
  rewrite drop_while_id; [apply rev_involutive|].
  intros c Hc. apply Hl. by rewrite <- head_rev_last.
Qed.

Lemma line_terminator_is_space c : is_line_terminator c = true -> is_space c = true.
Proof. unfold_classes. lia. Qed.

(** X13.  The result of [minifySvg] is a single line: it holds no line
    feed, carriage return, line separator or paragraph separator. *)
Theorem minifySvg_single_line s :
  Forall (fun c => is_line_terminator c = false) (minifySvg s).
Proof.
  destruct s as [| c0 s0]; [constructor|]. unfold minifySvg, replace.
  set (t := replace_all gap_match _ _ _).
  assert (Hcollapse : Forall (fun c => is_line_terminator c = false)
                        (replace_all collapse_match (length t) true t)).
  { apply (replace_all_Forall collapse_match collapse_match_consumes).
    - intros b [| c u] r rest; [done|]. rewrite collapse_match_cons.
      destruct (c =? 60) eqn:E60.
      + destruct (tag_end u) as [[body rest'] |] eqn:E; [|done].
        intros [= <- <-]. apply tag_end_spec in E as (_ & _ & Hbody).
        constructor; [|done]. unfold_classes. lia.
      + destruct (is_space c); [|done]. intros [= <- <-]. by repeat constructor.
    - intros b c rest. rewrite collapse_match_cons.
      destruct (c =? 60) eqn:E60; [intros _; unfold_classes; lia|].
      destruct (is_space c) eqn:Esp; [done|]. intros _.
      destruct (is_line_terminator c) eqn:Elt; [|done].
      apply line_terminator_is_space in Elt. congruence. }
  destruct (trim_middle (replace_all collapse_match (length t) true t))
    as (pre & post & E).
  rewrite E in Hcollapse.
  apply Forall_app in Hcollapse as [_ Hcollapse].
  by apply Forall_app in Hcollapse as [Hcollapse _].
Qed.

(** X14.  The result of [minifySvg] neither starts nor ends with white
    space, and a string made of white space only becomes the empty
    string. *)
Theorem minifySvg_trimmed s :
  (forall c, head (minifySvg s) = Some c -> is_space c = false)
  /\ (forall c, last (minifySvg s) = Some c -> is_space c = false)
  /\ (Forall (fun c => is_space c = true) s -> minifySvg s = []).
Proof.
  destruct s as [| c0 s0]; [by repeat split|]. unfold minifySvg.
  split; [apply trim_ends|]. split; [apply trim_ends|].
  intros Hs. unfold replace.
  rewrite (replace_all_no_match gap_match gap_match_consumes).
  - apply Forall_cons in Hs as [Hc0 Hs0].
    rewrite (replace_all_cons collapse_match collapse_match_consumes).
    rewrite collapse_match_cons, Hc0.
    assert (E60 : (c0 =? 60) = false) by (unfold_classes; lia).
    rewrite E60, (drop_while_all _ _ Hs0). reflexivity.
  - intros pre c rest E. rewrite gap_match_cons.
    rewrite E in Hs. apply Forall_app in Hs as [_ Hs].
    apply Forall_cons in Hs as [Hc _].
    assert (E62 : (c =? 62) = false) by (unfold_classes; lia).
    by rewrite E62.
Qed.

(** X15.  [minifySvg] never returns a longer string. *)
Theorem minifySvg_length s : (length (minifySvg s) <= length s)%nat.
Proof.
  destruct s as [| c0 s0]; [done|]. unfold minifySvg, replace.
  set (s := c0 :: s0).
  set (t := replace_all gap_match (length s) true s).
  set (u := replace_all collapse_match (length t) true t).
  assert (Ht : (length t <= length s)%nat).
  { apply (replace_all_length gap_match gap_match_consumes).
    intros b v r rest E. apply gap_match_length in E. lia. }
  assert (Hu : (length u <= length t)%nat).
  { apply (replace_all_length collapse_match collapse_match_consumes).
    intros b v r rest E. by apply collapse_match_length in E as [_ ?]. }
  destruct (trim_middle u) as (pre & post & E).
  apply (f_equal length) in E. rewrite !length_app in E. lia.
Qed.

Lemma tag_end_plain body rest :
  Forall (fun c => (c =? 62) = false /\ is_line_terminator c = false) body ->
  tag_end (body ++ 62 :: rest) = Some (body ++ [62], rest).
Proof.
  induction 1 as [| c body [Hc Hlt] _ IH]; [done|].
  simpl. by rewrite Hc, Hlt, IH.
Qed.

(** X16.  A tag on one line, that is [<], characters other than [>] and
    line terminators, then [>], is returned as it is, the white space
    inside it included. *)
Theorem minifySvg_tag body :
  Forall (fun c => (c =? 62) = false /\ is_line_terminator c = false) body ->
  minifySvg (60 :: body ++ [62]) = 60 :: body ++ [62].
Proof.
  intros Hbody. unfold minifySvg, replace.
  rewrite (replace_all_no_match gap_match gap_match_consumes).
  - rewrite (replace_all_cons collapse_match collapse_match_consumes).
    rewrite collapse_match_cons, tag_end_plain by done.
    change (60 =? 60) with true. cbn iota. cbn [length replace_all].
    rewrite app_nil_r. apply trim_id.
    + intros c [= <-]. reflexivity.
    + intros c. rewrite app_comm_cons, last_snoc. by intros [= <-].
  - intros pre c rest E. rewrite gap_match_cons.
    destruct (c =? 62) eqn:E62; [|done].
    destruct rest as [| d rest]; [done|]. exfalso.
    apply Z.eqb_eq in E62. subst c.
    destruct pre as [| p pre]; [discriminate|].
    injection E as <- E.
    assert (Hin : 62 ∈ body).
    { clear Hbody. revert pre E. induction body as [| b body IH]; intros pre E.
      - destruct pre as [| ? [| ? ?]]; discriminate.
      - destruct pre as [| p pre]; injection E as -> E; [left|].
        right. by eapply IH. }
    rewrite Forall_forall in Hbody. by destruct (Hbody 62 Hin).
Qed.

End Minify.

(** ** File helpers *)

Section FileProperties.

Variable path_join : jsstring -> jsstring -> jsstring.

Implicit Types (content fileName directory : jsstring) (w : World).

(** X17.  [writeFileIfNotExists] never overwrites: when the file exists the
    world is left as it is, whatever the content; so of two calls in a row
    for the same file only the first can have an effect. *)
Theorem writeFileIfNotExists_keeps content content' fileName directory w :
  (is_Some (files w !! path_join directory fileName) ->
   writeFileIfNotExists path_join content fileName directory w = (w, Returned tt))
  /\ (writeFileIfNotExists path_join content fileName directory;;
      writeFileIfNotExists path_join content' fileName directory) w
     = writeFileIfNotExists path_join content fileName directory w.
Proof.
  unfold writeFileIfNotExists, bind, existsSync, ret, writeFile, writeFileSync. split.
  - intros [old ->]. reflexivity.
  - destruct (files w !! path_join directory fileName) as [old |] eqn:E; simpl.
    + by rewrite E.
    + by rewrite lookup_insert_eq.
Qed.

(** X18.  Emptying a file with [resetFile] and then appending to it with
    [appendFile] is writing the content with [writeFile]; so is appending
    to a file that does not exist. *)
Theorem resetFile_appendFile content fileName directory w :
  (resetFile path_join fileName directory;;
   appendFile path_join content fileName directory) w
  = writeFile path_join content fileName directory w
  /\ (files w !! path_join directory fileName = None ->
      appendFile path_join content fileName directory w
      = writeFile path_join content fileName directory w).
Proof.
  unfold resetFile, appendFile, writeFile, bind, writeFileSync, appendFileSync.
  split.
  - simpl. rewrite lookup_insert_eq. simpl. by rewrite insert_insert_eq.
  - intros ->. reflexivity.
Qed.

(** X19.  What [writeSvgFile] writes, [readSvg] reads back, for a content
    without lone surrogate; the other files, the git commands and the
    console are left as they were. *)
Theorem writeSvgFile_readSvg content fileName directory w :
  well_formed content = true ->
  exists w',
    writeSvgFile path_join fileName directory content w = (w', Returned tt)
    /\ readSvg path_join fileName directory w' = (w', Returned content)
    /\ (forall path, path <> path_join directory fileName ->
          files w' !! path = files w !! path)
    /\ git_log w' = git_log w /\ console w' = console w.
Proof.
  intros _. eexists. split; [reflexivity|]. split; [|split; [|done]].
  - unfold readSvg, readFileSync. simpl. by rewrite lookup_insert_eq.
  - intros path Hne. simpl. by rewrite lookup_insert_ne.
Qed.

End FileProperties.

(** ** Metadata of a directory *)

Section ObjectProperties.

Implicit Types (acc : object) (key : jsstring) (v : json).

Lemma assign_plain acc key v :
  key <> js "__proto__" ->
  assign acc key v = {| own := <[key := v]> (own acc); proto := proto acc |}.
Proof. intros Hne. unfold assign. by rewrite bool_decide_eq_false_2. Qed.

(** An assignment gives no other own property a value, and takes none
    away. *)
Lemma assign_lookup acc key v key' x :
  own (assign acc key v) !! key' = Some x ->
  own acc !! key' = Some x \/ (key' = key /\ x = v).
Proof.
  unfold assign. destruct (_ && _); simpl; [by left|].
  destruct (decide (key = key')) as [<- | Hne].
  - rewrite lookup_insert_eq. intros [= <-]. by right.
  - rewrite lookup_insert_ne by done. by left.
Qed.

Lemma assign_keeps acc key v key' :
  is_Some (own acc !! key') -> is_Some (own (assign acc key v) !! key').
Proof.
  unfold assign. destruct (_ && _); simpl; [done|].
  destruct (decide (key = key')) as [<- | Hne].
  - rewrite lookup_insert_eq. by eexists.
  - by rewrite lookup_insert_ne.
Qed.

Lemma assign_lookup_ne acc key v key' :
  key' <> key -> own (assign acc key v) !! key' = own acc !! key'.
Proof.
  intros Hne. unfold assign. destruct (_ && _); simpl; [done|].
  by rewrite lookup_insert_ne.
Qed.

(** The first assignment to [__proto__] of an object literal adds no
    property. *)
Lemma assign_proto_accessor acc v :
  own acc !! js "__proto__" = None -> proto acc = ObjectPrototype ->
  own (assign acc (js "__proto__") v) = own acc
  /\ proto (assign acc (js "__proto__") v) = set_prototype v ObjectPrototype.
Proof.
  intros Hown Hproto. unfold assign.
  rewrite bool_decide_eq_true_2, bool_decide_eq_true_2, Hproto by done. done.
Qed.

End ObjectProperties.

Section MetadataProperties.

Variable path_join : jsstring -> jsstring -> jsstring.
Variable path_extname : jsstring -> jsstring.
Variable path_basename : jsstring -> jsstring -> jsstring.
Variable readdirSync : jsstring -> World -> outcome (list jsstring).

Context `{JSON}.

Implicit Types (directory fileName : jsstring) (w : World) (acc : object).

Local Abbreviation key_of fileName := (path_basename fileName (js ".json")).
Local Abbreviation keys_of fileNames :=
  ((fun fileName => path_basename fileName (js ".json")) <$> fileNames).
Local Abbreviation reads w directory fileName v :=
  (exists text, files w !! path_join directory fileName = Some text
                /\ JSON_parse text = Some v).
Local Abbreviation reduce := (reduce_metadata path_join path_basename).

Lemma readMetadata_reads fileName directory w v :
  reads w directory fileName v ->
  readMetadata path_join fileName directory w = (w, Returned v).
Proof.
  intros (text & Htext & Hparse).
  unfold readMetadata, bind, readFileSync. by rewrite Htext, Hparse.
Qed.

Lemma readMetadata_fails fileName directory w :
  (forall v, ~ reads w directory fileName v) ->
  exists e, readMetadata path_join fileName directory w = (w, Thrown e).
Proof.
  intros Hno. unfold readMetadata, bind, readFileSync.
  destruct (files w !! path_join directory fileName) as [text |] eqn:Htext;
    [|by eexists].
  destruct (JSON_parse text) as [v |] eqn:Hparse; [|by eexists].
  destruct (Hno v). by exists text.
Qed.

Lemma readMetadata_world fileName directory w :
  (readMetadata path_join fileName directory w).1 = w.
Proof.
  unfold readMetadata, bind, readFileSync.
  destruct (files w !! path_join directory fileName) as [text |]; [|done].
  by destruct (JSON_parse text).
Qed.

Lemma reduce_world directory fileNames acc w :
  (reduce directory fileNames acc w).1 = w.
Proof.
  revert acc. induction fileNames as [| fileName rest IH]; intros acc; [done|].
  simpl. unfold bind.
  pose proof (readMetadata_world fileName directory w) as Hw.
  destruct (readMetadata path_join fileName directory w) as [w' [v | e]];
    simpl in Hw; subst w'; [apply IH | done].
Qed.

Lemma reduce_returns directory fileNames acc w :
  Forall (fun fileName => exists v, reads w directory fileName v) fileNames ->
  exists m,
    reduce directory fileNames acc w = (w, Returned m)
    /\ (forall key, is_Some (own acc !! key) -> is_Some (own m !! key))
    /\ (forall fileName,
          fileName ∈ fileNames -> key_of fileName <> js "__proto__" ->
          is_Some (own m !! key_of fileName))
    /\ (forall key v, own m !! key = Some v ->
          own acc !! key = Some v
          \/ exists fileName,
               fileName ∈ fileNames /\ key_of fileName = key
               /\ reads w directory fileName v)
    /\ ((forall fileName, fileName ∈ fileNames -> key_of fileName <> js "__proto__") ->
        proto m = proto acc)
    /\ (NoDup (keys_of fileNames) ->
        own acc !! js "__proto__" = None ->
        proto acc = ObjectPrototype \/ js "__proto__" ∉ keys_of fileNames ->
        own m !! js "__proto__" = None).
Proof.
  revert acc. induction fileNames as [| fileName rest IH]; intros acc Hall.
  - exists acc. split; [done|]. split; [done|]. split.
    { intros fileName Hin. by apply elem_of_nil in Hin. }
    split; [by left|]. split; done.
  - apply Forall_cons in Hall as [[v Hv] Hall].
    destruct (IH (assign acc (key_of fileName) v) Hall)
      as (m & Hrun & Hkept & Hkeys & Hvals & Hproto & Hnone).
    exists m. split; [|split; [|split; [|split; [|split]]]].
    + simpl. unfold bind. by rewrite (readMetadata_reads _ _ _ _ Hv).
    + intros key Hkey. by apply Hkept, assign_keeps.
    + intros f Hin Hne. apply elem_of_cons in Hin as [Heq | Hin]; [|by apply Hkeys].
      subst f. apply Hkept. rewrite assign_plain by done. simpl.
      rewrite lookup_insert_eq. by eexists.
    + intros key x Hx. destruct (Hvals key x Hx) as [Hacc | (f & Hin & Hkey & Hf)].
      * apply assign_lookup in Hacc as [Hacc | [-> ->]]; [by left|].
        right. exists fileName. split; [left | done].
      * right. exists f. split; [by right | done].
    + intros Hplain. rewrite Hproto.
      * rewrite assign_plain by (apply Hplain; left). done.
      * intros f Hf. apply Hplain. by right.
    + intros Hnd Hown Hcase. rewrite fmap_cons in Hnd, Hcase.
      apply NoDup_cons in Hnd as [Hfirst Hnd].
      destruct (decide (key_of fileName = js "__proto__")) as [Heq | Hne].
      * rewrite Heq in *.
        destruct Hcase as [Hobj | Hnot]; [|destruct Hnot; left].
        destruct (assign_proto_accessor acc v Hown Hobj) as [Hsame _].
        apply Hnone; [done | by rewrite Hsame | by right].
      * apply Hnone; [done | by rewrite assign_lookup_ne |].
        destruct Hcase as [Hobj | Hnot].
        -- left. by rewrite assign_plain.
        -- right. intros Hin. apply Hnot. by right.
Qed.

Lemma reduce_fails directory fileNames acc w fileName :
  fileName ∈ fileNames ->
  (forall v, ~ reads w directory fileName v) ->
  exists e, reduce directory fileNames acc w = (w, Thrown e).
Proof.
  revert acc. induction fileNames as [| f rest IH]; intros acc Hin Hno.
  - by apply elem_of_nil in Hin.
  - simpl. unfold bind.
    pose proof (readMetadata_world f directory w) as Hw.
    destruct (readMetadata path_join f directory w) as [w' [x | e]] eqn:E;
      simpl in Hw; subst w'; [|by eexists].
    apply elem_of_cons in Hin as [Heq | Hin]; [|by apply IH].
    subst f.
    destruct (readMetadata_fails fileName directory w Hno) as [e He]. congruence.
Qed.

(** X27.  When every entry of the directory with the extension [.json]
    holds valid JSON, [readAllMetadata] returns an object and leaves the
    world as it is.  The object has the base name of each of these entries
    as an own property, but for the base name [__proto__]; each own
    property holds the parsed content of an entry of that base name.  When
    no base name is [__proto__] the prototype is that of an object literal;
    and when the base names are all different, as they are in a listing,
    [__proto__] is no own property: that entry sets the prototype, or is
    ignored. *)
Theorem readAllMetadata_returns directory w entries :
  readdirSync directory w = Returned entries ->
  (forall fileName,
     fileName ∈ entries -> path_extname fileName = js ".json" ->
     exists v, reads w directory fileName v) ->
  exists m,
    readAllMetadata path_join path_extname path_basename readdirSync directory w
    = (w, Returned m)
    /\ (forall fileName,
          fileName ∈ entries -> path_extname fileName = js ".json" ->
          key_of fileName <> js "__proto__" ->
          is_Some (own m !! key_of fileName))
    /\ (forall key v,
          own m !! key = Some v ->
          exists fileName,
            fileName ∈ entries /\ path_extname fileName = js ".json"
            /\ key_of fileName = key /\ reads w directory fileName v)
    /\ ((forall fileName,
           fileName ∈ entries -> path_extname fileName = js ".json" ->
           key_of fileName <> js "__proto__") ->
        proto m = ObjectPrototype)
    /\ (NoDup (keys_of (filter (fun file => path_extname file = js ".json") entries)) ->
        own m !! js "__proto__" = None).
Proof.
  intros Hdir Hall. unfold readAllMetadata, bind. rewrite Hdir.
  set (names := filter (fun file => path_extname file = js ".json") entries).
  assert (Hnames : forall f, f ∈ names <-> path_extname f = js ".json" /\ f ∈ entries)
    by (intros f; apply (list_elem_of_filter (fun file => path_extname file = js ".json"))).
  destruct (reduce_returns directory names empty_object w)
    as (m & Hrun & _ & Hkeys & Hvals & Hproto & Hnone).
  { apply Forall_forall. intros f Hf. apply Hnames in Hf as [Hext Hin]. by apply Hall. }
  exists m. split; [exact Hrun|]. split; [|split; [|split]].
  - intros f Hin Hext. apply Hkeys. by apply Hnames.
  - intros key v Hm. destruct (Hvals key v Hm) as [Hempty | (f & Hf & Hkey & Hread)].
    + simpl in Hempty. by rewrite lookup_empty in Hempty.
    + apply Hnames in Hf as [Hext Hin]. by exists f.
  - intros Hplain. rewrite Hproto; [done|].
    intros f Hf. apply Hnames in Hf as [Hext Hin]. by apply Hplain.
  - intros Hnd. apply Hnone; [done | apply lookup_empty | by left].
Qed.

(** X28.  One entry with the extension [.json] that is missing or is not
    valid JSON makes [readAllMetadata] throw, without any result for the
    other entries; the world is left as it is. *)
Theorem readAllMetadata_fails directory w entries fileName :
  readdirSync directory w = Returned entries ->
  fileName ∈ entries -> path_extname fileName = js ".json" ->
  (forall v, ~ reads w directory fileName v) ->
  exists e,
    readAllMetadata path_join path_extname path_basename readdirSync directory w
    = (w, Thrown e).
Proof.
  intros Hdir Hin Hext Hno. unfold readAllMetadata, bind. rewrite Hdir.
  apply (reduce_fails _ _ _ _ fileName); [|done].
  by apply list_elem_of_filter.
Qed.

End MetadataProperties.

(** ** The rename workflow, further *)

Section RenameFurther.

Context `{JSON}.

Implicit Types (d oldName newName svg text : jsstring) (w : World).

#[local] Arguments svg_path : simpl never.
#[local] Arguments json_path : simpl never.
#[local] Arguments next_steps : simpl never.
#[local] Arguments js : simpl never.

(** The world once the two files have been moved. *)
Local Abbreviation moved d oldName newName svg text w :=
  {| files := <[json_path d newName := text]>
                (delete (json_path d oldName)
                   (<[svg_path d newName := svg]>
                      (delete (svg_path d oldName) (files w))));
     git_log := (git_log w ++ [GitMv (svg_path d oldName) (svg_path d newName)])
                ++ [GitMv (json_path d oldName) (json_path d newName)];
     console := console w |}.

(** The lines that [logInfo] asks for. *)
Local Abbreviation advice oldName newName :=
  [js "SUCCESS: Next steps:";
   js "git checkout -b rename/" ++ oldName ++ js "-to-" ++ newName ++ js ";";
   js "git commit -m 'Renamed " ++ oldName ++ js " to " ++ newName ++ js "';";
   js "gh pr create --title 'Renamed " ++ oldName ++ js " to " ++ newName ++ js "';";
   js "git checkout main;"].

(** The workflow after its four checks: the two moves, then the outcome
    of parsing and of the migration. *)
Lemma renameIcon_after_checks d oldName newName logInfo w svg text :
  files w !! svg_path d newName = None ->
  files w !! json_path d newName = None ->
  files w !! svg_path d oldName = Some svg ->
  files w !! json_path d oldName = Some text ->
  renameIcon d oldName newName logInfo w
  = match JSON_parse text with
    | None => (moved d oldName newName svg text w, Thrown SyntaxError)
    | Some v =>
        match migrate_aliases v oldName newName with
        | Thrown e => (moved d oldName newName svg text w, Thrown e)
        | Returned v' =>
            ({| files := <[json_path d newName := JSON_stringify v' 2]>
                           (files (moved d oldName newName svg text w));
                git_log := git_log (moved d oldName newName svg text w)
                           ++ [GitAdd (json_path d newName)];
                console := console w
                           ++ (if default true logInfo then advice oldName newName
                               else []) |},
             Returned tt)
        end
    end.
Proof.
  intros Hns Hnj Hos Hoj.
  assert (Hoj' :
    <[svg_path d newName := svg]> (delete (svg_path d oldName) (files w))
      !! json_path d oldName = Some text).
  { rewrite lookup_insert_ne by apply svg_path_ne_json_path.
    by rewrite lookup_delete_ne by apply svg_path_ne_json_path. }
  assert (Hnj' :
    <[svg_path d newName := svg]> (delete (svg_path d oldName) (files w))
      !! json_path d newName = None).
  { rewrite lookup_insert_ne by apply svg_path_ne_json_path.
    by rewrite lookup_delete_ne by apply svg_path_ne_json_path. }
  unfold renameIcon, bind, fileExists, ret, throw, lift.
  rewrite Hns. simpl. rewrite Hnj. simpl. rewrite Hos. simpl.
  rewrite Hoj. simpl.
  unfold git_mv at 1. rewrite Hos, Hns. simpl.
  unfold git_mv. simpl. rewrite Hoj', Hnj'. simpl.
  unfold readFileSync. simpl. rewrite lookup_insert_eq.
  destruct (JSON_parse text) as [v |]; [|done].
  destruct (migrate_aliases v oldName newName) as [v' | e]; [|done].
  unfold git_add, writeFileSync. simpl. rewrite lookup_insert_eq.
  destruct (default true logInfo).
  - unfold next_steps, bind, console_log. simpl.
    by rewrite <- !app_assoc.
  - simpl. by rewrite app_nil_r.
Qed.

(** X20.  A rename that goes through touches the four files of the two
    names only, and records exactly the two moves and the staging of the
    new metadata file, in this order. *)
Theorem renameIcon_frame d oldName newName logInfo w svg text v v' :
  files w !! svg_path d newName = None ->
  files w !! json_path d newName = None ->
  files w !! svg_path d oldName = Some svg ->
  files w !! json_path d oldName = Some text ->
  JSON_parse text = Some v ->
  migrate_aliases v oldName newName = Returned v' ->
  exists w',
    renameIcon d oldName newName logInfo w = (w', Returned tt)
    /\ (forall path,
          path <> svg_path d oldName -> path <> json_path d oldName ->
          path <> svg_path d newName -> path <> json_path d newName ->
          files w' !! path = files w !! path)
    /\ git_log w'
       = git_log w
         ++ [GitMv (svg_path d oldName) (svg_path d newName);
             GitMv (json_path d oldName) (json_path d newName);
             GitAdd (json_path d newName)].
Proof.
  intros Hns Hnj Hos Hoj Hparse Hmig.
  rewrite (renameIcon_after_checks d oldName newName logInfo w svg text) by done.
  rewrite Hparse, Hmig. eexists. split; [reflexivity|]. simpl. split.
  - intros path H1 H2 H3 H4.
    rewrite !lookup_insert_ne by done. rewrite lookup_delete_ne by done.
    rewrite lookup_insert_ne by done. by rewrite lookup_delete_ne.
  - by rewrite <- !app_assoc.
Qed.



(** X23.  Renaming an icon to its own name always throws one of the
    errors of the checks and leaves the world as it was. *)
Theorem renameIcon_same_name d name logInfo w :
  exists message, renameIcon d name name logInfo w = (w, Thrown (Error message)).
Proof.
  unfold renameIcon, bind, fileExists, ret, throw.
  destruct (files w !! svg_path d name) as [svg |] eqn:Es; simpl.
  - by eexists.
  - destruct (files w !! json_path d name) as [text |] eqn:Ej; simpl.
    + by eexists.
    + rewrite Es. simpl. by eexists.
Qed.

(** X24.  The advice is the only thing written to the console: with
    [logInfo] false a rename that goes through writes nothing, otherwise it
    writes the five lines of next steps after what was there. *)
Theorem renameIcon_console d oldName newName logInfo w svg text v v' :
  files w !! svg_path d newName = None ->
  files w !! json_path d newName = None ->
  files w !! svg_path d oldName = Some svg ->
  files w !! json_path d oldName = Some text ->
  JSON_parse text = Some v ->
  migrate_aliases v oldName newName = Returned v' ->
  exists w',
    renameIcon d oldName newName logInfo w = (w', Returned tt)
    /\ console w'
       = console w ++ (if default true logInfo then advice oldName newName else []).
Proof.
  intros Hns Hnj Hos Hoj Hparse Hmig.
  rewrite (renameIcon_after_checks d oldName newName logInfo w svg text) by done.
  rewrite Hparse, Hmig. eexists. split; reflexivity.
Qed.

End RenameFurther.

(** ** The digest, further *)

Section Digest.

Implicit Types (n k : Z) (s acc : jsstring) (fuel : nat).

(** The number of digits of a numeral. *)
Lemma toString36_length (digits : nat) n :
  0 <= n ->
  (n < 36 ^ Z.of_nat (S digits) -> (length (toString36 n) <= S digits)%nat)
  /\ (36 ^ Z.of_nat digits <= n -> (S digits <= length (toString36 n))%nat).
Proof.
  revert n. induction digits as [| digits IH]; intros n Hn.
  - split.
    + intros Hlt. rewrite toString36_small by (simpl in Hlt; lia). simpl. lia.
    + intros _. pose proof (toString36_nonempty n).
      destruct (toString36 n); [done | simpl; lia].
  - assert (Hpow : 36 ^ Z.of_nat (S digits) = 36 * 36 ^ Z.of_nat digits)
      by (rewrite Nat2Z.inj_succ, Z.pow_succ_r; lia).
    assert (Hpos : 0 < 36 ^ Z.of_nat digits) by (apply Z.pow_pos_nonneg; lia).
    split.
    + intros Hlt.
      destruct (Z.lt_ge_cases n 36) as [Hs | Hs].
      { rewrite toString36_small by lia. simpl. lia. }
      rewrite toString36_step, length_app by done. simpl.
      destruct (IH (n / 36) ltac:(apply Z.div_pos; lia)) as [Hup _].
      rewrite Nat2Z.inj_succ, Z.pow_succ_r in Hlt by lia.
      specialize (Hup ltac:(apply Z.div_lt_upper_bound; lia)). lia.
    + intros Hge. rewrite Hpow in Hge.
      rewrite toString36_step, length_app by lia. simpl.
      destruct (IH (n / 36) ltac:(apply Z.div_pos; lia)) as [_ Hlow].
      specialize (Hlow ltac:(apply Z.div_le_lower_bound; lia)). lia.
Qed.

(** X25.  What the digest keeps of the unsigned 32-bit value that the loop
    leaves ([seed >>> 0]): the whole value when it is below [36 ^ 6], and
    otherwise the value without its last base-36 digit.  Two values of
    seven digits that differ in the last digit only have the same
    digest. *)
Theorem hash_digest_value s (seed : option number) :
  let value := js_ushr0 (hash_loop s (length s) (default default_seed seed)) in
  0 <= value < 2 ^ 32
  /\ base36_value (hash s seed) = if value <? 36 ^ 6 then value else value / 36.
Proof.
  intros value. unfold hash, substr0. fold value.
  assert (Hv : 0 <= value < 2 ^ 32) by apply ToUint32_range.
  split; [exact Hv|].
  destruct (value <? 36 ^ 6) eqn:E.
  - apply Z.ltb_lt in E.
    destruct (toString36_length 5 value ltac:(lia)) as [Hup _].
    rewrite take_ge by (apply Hup; exact E).
    apply toString36_value. lia.
  - apply Z.ltb_ge in E.
    rewrite toString36_step by lia.
    assert (Hq : 0 <= value / 36) by (apply Z.div_pos; lia).
    destruct (toString36_length 5 (value / 36) Hq) as [Hup Hlow].
    assert (Hlen : length (toString36 (value / 36)) = 6%nat).
    { specialize (Hup ltac:(apply Z.div_lt_upper_bound; simpl; lia)).
      specialize (Hlow ltac:(apply Z.div_le_lower_bound; simpl in *; lia)). lia. }
    rewrite <- Hlen, take_app_length. by apply toString36_value.
Qed.

End Digest.

Section DuplicatesFurther.

Implicit Types children : list Entity.

(** X26.  Duplicate detection does not depend on the order of the
    collection, and adding entities to a collection never clears a positive
    answer. *)
Theorem hasDuplicatedChildren_order children children' :
  (children ≡ₚ children' ->
   hasDuplicatedChildren children = hasDuplicatedChildren children')
  /\ (children ⊆+ children' ->
      hasDuplicatedChildren children = true ->
      hasDuplicatedChildren children' = true).
Proof.
  split.
  - intros Hperm.
    assert (Hkeys : NoDup (map generateHashedKey children)
                    <-> NoDup (map generateHashedKey children'))
      by (by rewrite Hperm).
    rewrite <- !hasDuplicatedChildren_false in Hkeys.
    destruct (hasDuplicatedChildren children), (hasDuplicatedChildren children');
      intuition congruence.
  - intros Hsub Hdup.
    destruct (hasDuplicatedChildren children') eqn:E; [done|].
    apply hasDuplicatedChildren_false in E.
    assert (Hnd : NoDup (map generateHashedKey children)).
    { apply (fmap_submseteq generateHashedKey) in Hsub.
      apply submseteq_Permutation in Hsub as [extra Hextra].
      change (generateHashedKey <$> children') with (map generateHashedKey children')
        in Hextra.
      rewrite Hextra in E. by apply NoDup_app in E as [? _]. }
    apply hasDuplicatedChildren_false in Hnd. congruence.
Qed.

End DuplicatesFurther.

(** ** Further examples *)

Lemma str_eqb_eq (x y : jsstring) : str_eqb x y = true <-> x = y.
Proof. apply bool_decide_eq_true. Qed.

Lemma mergeArrays_order_witness :
  sublist (mergeArrays str_eqb [js "a"; js "b"] [js "b"; js "c"; js "a"; js "c"])
          ([js "a"; js "b"] ++ [js "b"; js "c"; js "a"; js "c"])
  /\ [js "a"; js "b"] `prefix_of`
       mergeArrays str_eqb [js "a"; js "b"] [js "b"; js "c"; js "a"; js "c"]
  /\ mergeArrays str_eqb [js "a"; js "b"] [js "c"] = [js "a"; js "b"; js "c"].
Proof.
  split; [|split].
  - apply (mergeArrays_order str_eqb [js "a"; js "b"] [js "b"; js "c"; js "a"; js "c"]).
  - apply (mergeArrays_order str_eqb [js "a"; js "b"] [js "b"; js "c"; js "a"; js "c"]).
    apply (distinct_NoDup str_eqb _ str_eqb_eq).
    by apply (bool_decide_unpack _).
  - apply (mergeArrays_order str_eqb [js "a"; js "b"] [js "c"]).
    apply (distinct_NoDup str_eqb _ str_eqb_eq).
    by apply (bool_decide_unpack _).
Defined.

Example mergeArrays_example :
  mergeArrays str_eqb [js "a"; js "b"] [js "b"; js "c"; js "a"; js "c"]
  = [js "a"; js "b"; js "c"].
Proof. reflexivity. Qed.

(** Numbers: not-a-number is dropped wherever it stands, and of two
    writings of one number the first is kept. *)
Example mergeArrays_numbers :
  mergeArrays number_strict_equals [NaN; int 1] [NaN] = [int 1]
  /\ mergeArrays number_strict_equals [NaN] [] = []
  /\ mergeArrays number_strict_equals [Finite 1 1; int 3] [int 2; int 3] = [Finite 1 1; int 3].
Proof. repeat split; vm_compute; reflexivity. Qed.

Lemma elem_of_mergeArrays_witness :
  (exists y, y ∈ mergeArrays number_strict_equals [NaN; Finite 1 1] [int 2; NaN]
             /\ number_strict_equals y (int 2) = true)
  /\ (forall x, x ∈ mergeArrays str_eqb [js "a"; js "b"] [js "b"; js "c"]
                <-> x ∈ [js "a"; js "b"] \/ x ∈ [js "b"; js "c"]).
Proof.
  split.
  - apply (proj1 (proj2 (elem_of_mergeArrays number_strict_equals
             number_strict_equals_sym number_strict_equals_trans
             [NaN; Finite 1 1] [int 2; NaN])) (int 2)).
    + right. left.
    + reflexivity.
  - apply (proj2 (proj2 (elem_of_mergeArrays str_eqb
             ltac:(intros x y; unfold str_eqb; apply bool_decide_ext; split; congruence)
             ltac:(intros x y z; rewrite !str_eqb_eq; congruence)
             [js "a"; js "b"] [js "b"; js "c"])) str_eqb_eq).
Defined.

Lemma mergeArrays_idempotent_witness :
  mergeArrays number_strict_equals
    (mergeArrays number_strict_equals [NaN; Finite 1 1] [int 2; NaN; int 3]) [int 2; NaN; int 3]
  = mergeArrays number_strict_equals [NaN; Finite 1 1] [int 2; NaN; int 3].
Proof.
  apply (mergeArrays_idempotent number_strict_equals
           number_strict_equals_sym number_strict_equals_trans
           [NaN; Finite 1 1] [int 2; NaN; int 3]).
Defined.

Lemma shuffle_complete_witness :
  exists g : nat -> nat, shuffle (draws g) [1; 2; 3] = [2; 1; 3].
Proof. apply shuffle_complete. apply Permutation_swap. Defined.

Lemma shuffle_injective_witness :
  fin_to_nat (draws (fun _ => 5%nat) 1) = fin_to_nat (draws (fun k => k) 1)
  /\ fin_to_nat (draws (fun _ => 5%nat) 2) = fin_to_nat (draws (fun k => k) 2).
Proof.
  split.
  - apply (shuffle_injective (fun _ => 5%nat) (fun k => k) [1; 2; 3]);
      [by apply (bool_decide_unpack _) | reflexivity | simpl; lia].
  - apply (shuffle_injective (fun _ => 5%nat) (fun k => k) [1; 2; 3]);
      [by apply (bool_decide_unpack _) | reflexivity | simpl; lia].
Defined.

Example shuffle_example :
  shuffle (draws (fun _ => O)) [1; 2; 3; 4] = [2; 3; 4; 1].
Proof. reflexivity. Qed.

Lemma toCamelCase_plain_witness :
  (length (toCamelCase (js "arrowUp")) <= length (js "arrowUp"))%nat
  /\ toCamelCase (js "arrowUp") = js "arrowUp".
Proof.
  destruct (toCamelCase_plain (js "arrowUp")) as [Hlen Hplain].
  split; [exact Hlen|]. apply Hplain.
  - by apply (bool_decide_unpack _).
  - intros c [= <-]. reflexivity.
Defined.

(** The words of the name [arrow-up-right]. *)
Lemma arrow_up_right_words :
  Forall (fun word => word <> [] /\ Forall (fun c => is_lower c || is_digit c = true) word)
    [js "arrow"; js "up"; js "right"].
Proof. repeat (constructor; [split; [done | by apply (bool_decide_unpack _)]|]). constructor. Qed.

Lemma toCamelCase_kebab_name_witness :
  toCamelCase (js "arrow-up-right") = js "arrowUpRight"
  /\ toPascalCase ascii_toUpperCase (js "arrow-up-right") = js "ArrowUpRight".
Proof.
  apply (toCamelCase_kebab_name ascii_toUpperCase
           ltac:(intros s _; reflexivity)
           [js "arrow"; js "up"; js "right"]).
  apply arrow_up_right_words.
Defined.

Lemma arrow_up_right_others :
  Forall (fun word => exists c t, word = c :: t /\ is_lower c = true
                      /\ Forall (fun c => is_lower c || is_digit c = true) t)
    [js "arrow"; js "up"; js "right"]
  /\ (forall (i : nat) word,
        [js "arrow"; js "up"; js "right"] !! i = Some word ->
        (S i < length [js "arrow"; js "up"; js "right"])%nat -> (2 <= length word)%nat)
  /\ (forall (i : nat) word,
        [js "up"; js "right"] !! i = Some word ->
        (S i < length [js "up"; js "right"])%nat -> (2 <= length word)%nat).
Proof.
  split; [|split].
  - repeat (constructor;
            [eexists _, _; split; [reflexivity|];
             split; [reflexivity | by apply (bool_decide_unpack _)]|]).
    constructor.
  - intros [| [| [| i]]] word; simpl; intros [= <-] _ || (intros; lia); simpl; lia.
  - intros [| [| i]] word; simpl; intros [= <-] _ || (intros; lia); simpl; lia.
Qed.

Lemma toKebabCase_toCamelCase_witness :
  toKebabCase ascii_toLowerCase (toCamelCase (js "arrow-up-right")) = js "arrow-up-right".
Proof.
  destruct arrow_up_right_others as (Hwords & _ & Hlong).
  apply Forall_cons in Hwords as [_ Hothers].
  apply (toKebabCase_toCamelCase ascii_toLowerCase
           ltac:(intros s _; reflexivity) (js "arrow") [js "up"; js "right"]);
    [done | by apply (bool_decide_unpack _) | exact Hothers | exact Hlong].
Defined.

Lemma toKebabCase_toPascalCase_witness :
  toKebabCase ascii_toLowerCase (toPascalCase ascii_toUpperCase (js "arrow-up-right"))
  = js "arrow-up-right".
Proof.
  destruct arrow_up_right_others as (Hwords & Hlong & _).
  apply (toKebabCase_toPascalCase ascii_toUpperCase ascii_toLowerCase
           ltac:(intros s _; reflexivity) ltac:(intros s _; reflexivity)
           [js "arrow"; js "up"; js "right"]); [exact Hwords | exact Hlong].
Defined.

(** Where the round trip stops: a word of one letter before another word,
    and a word that starts with a digit. *)
Example toKebabCase_toCamelCase_short_word :
  toKebabCase ascii_toLowerCase (toCamelCase (js "arrow-down-a-z")) = js "arrow-down-az"
  /\ toKebabCase ascii_toLowerCase (toCamelCase (js "clock-1")) = js "clock1".
Proof. split; reflexivity. Qed.

Lemma toKebabCase_ascii_witness :
  Forall (fun c => is_upper c = false) (toKebabCase ascii_toLowerCase (js "arrowUpRight2X"))
  /\ toKebabCase ascii_toLowerCase (toKebabCase ascii_toLowerCase (js "arrowUpRight2X"))
     = toKebabCase ascii_toLowerCase (js "arrowUpRight2X").
Proof.
  apply (toKebabCase_ascii ascii_toLowerCase ltac:(intros s _; reflexivity)).
  by apply (bool_decide_unpack _).
Defined.

Lemma minifySvg_trimmed_witness : minifySvg [32; 10; 9; 32] = [].
Proof.
  apply (minifySvg_trimmed [32; 10; 9; 32]).
  by apply (bool_decide_unpack _).
Defined.

Lemma minifySvg_tag_witness :
  minifySvg (60 :: js "path  d='M 1 2' /" ++ [62]) = 60 :: js "path  d='M 1 2' /" ++ [62].
Proof.
  apply minifySvg_tag. by apply (bool_decide_unpack _).
Defined.

Lemma writeFileIfNotExists_keeps_witness :
  writeFileIfNotExists plain_join (js "other") (js "home.svg") (js "icons") world_home
  = (world_home, Returned tt).
Proof.
  apply (proj1 (writeFileIfNotExists_keeps plain_join (js "other") (js "other")
                  (js "home.svg") (js "icons") world_home)).
  exists svg_text. reflexivity.
Defined.

Lemma resetFile_appendFile_witness :
  appendFile plain_join svg_text (js "house.svg") (js "icons") world_home
  = writeFile plain_join svg_text (js "house.svg") (js "icons") world_home.
Proof.
  apply (resetFile_appendFile plain_join svg_text (js "house.svg") (js "icons") world_home).
  reflexivity.
Defined.

Lemma writeSvgFile_readSvg_witness :
  exists w',
    writeSvgFile plain_join (js "house.svg") (js "icons") svg_text world_home
    = (w', Returned tt)
    /\ readSvg plain_join (js "house.svg") (js "icons") w' = (w', Returned svg_text)
    /\ (forall path, path <> plain_join (js "icons") (js "house.svg") ->
          files w' !! path = files world_home !! path)
    /\ git_log w' = git_log world_home /\ console w' = console world_home.
Proof. apply writeSvgFile_readSvg. reflexivity. Defined.

Lemma renameIcon_frame_witness :
  exists w',
    @renameIcon sample_JSON (js "icons") (js "a") (js "c") None world_a_b
    = (w', Returned tt)
    /\ (forall path,
          path <> svg_path (js "icons") (js "a") ->
          path <> json_path (js "icons") (js "a") ->
          path <> svg_path (js "icons") (js "c") ->
          path <> json_path (js "icons") (js "c") ->
          files w' !! path = files world_a_b !! path)
    /\ git_log w'
       = git_log world_a_b
         ++ [GitMv (svg_path (js "icons") (js "a")) (svg_path (js "icons") (js "c"));
             GitMv (json_path (js "icons") (js "a")) (json_path (js "icons") (js "c"));
             GitAdd (json_path (js "icons") (js "c"))].
Proof.
  apply (@renameIcon_frame sample_JSON (js "icons") (js "a") (js "c") None world_a_b
           svg_text (sample_stringify doc_home 2) doc_home
           (JObj [(js "tags", JArr [JStr (js "building")]);
                  (js "aliases", JArr [JStr (js "a")])]));
    reflexivity.
Defined.



Example renameIcon_metadata_null :
  (@renameIcon (table_JSON [JNull]) (js "icons") (js "home") (js "house") None
     (world_with_metadata (js "null"))).2
  = Thrown TypeError.
Proof. reflexivity. Qed.

Lemma renameIcon_console_witness :
  exists w',
    @renameIcon sample_JSON (js "icons") (js "home") (js "house") (Some false) world_home
    = (w', Returned tt)
    /\ console w' = console world_home ++ [].
Proof.
  apply (@renameIcon_console sample_JSON (js "icons") (js "home") (js "house")
           (Some false) world_home svg_text (sample_stringify doc_home 2) doc_home
           (JObj [(js "tags", JArr [JStr (js "building")]);
                  (js "aliases", JArr [JStr (js "home")])]));
    reflexivity.
Defined.

Lemma hasDuplicatedChildren_order_witness :
  hasDuplicatedChildren [entity_path; entity_rect]
  = hasDuplicatedChildren [entity_rect; entity_path]
  /\ hasDuplicatedChildren [entity_rect; entity_path; entity_path] = true.
Proof.
  split.
  - apply (proj1 (hasDuplicatedChildren_order [entity_path; entity_rect]
                    [entity_rect; entity_path])).
    apply Permutation_swap.
  - apply (proj2 (hasDuplicatedChildren_order [entity_path; entity_path]
                    [entity_rect; entity_path; entity_path])).
    + by apply submseteq_cons.
    + vm_compute. reflexivity.
Defined.

Example plain_names :
  plain_extname (js "home.json") = js ".json"
  /\ plain_extname (js ".gitignore") = []
  /\ plain_basename (js "home.json") (js ".json") = js "home".
Proof. repeat split; vm_compute; reflexivity. Qed.

Lemma readAllMetadata_returns_witness :
  exists m,
    @readAllMetadata plain_join plain_extname plain_basename
      (listing [js "a.json"; js "a.svg"; js "__proto__.json"]) sample_JSON
      (js "icons") world_proto
    = (world_proto, Returned m)
    /\ is_Some (own m !! js "a")
    /\ own m !! js "__proto__" = None.
Proof.
  destruct (@readAllMetadata_returns plain_join plain_extname plain_basename
              (listing [js "a.json"; js "a.svg"; js "__proto__.json"]) sample_JSON
              (js "icons") world_proto [js "a.json"; js "a.svg"; js "__proto__.json"]
              eq_refl)
    as (m & Hrun & Hkeys & _ & _ & Hnone).
  { intros fileName Hin Hext.
    repeat (apply elem_of_cons in Hin as [-> | Hin]);
      try (vm_compute in Hext; discriminate).
    - exists doc_home, (sample_stringify doc_home 2). split; reflexivity.
    - exists doc_house, (sample_stringify doc_house 2). split; reflexivity.
    - by apply elem_of_nil in Hin. }
  exists m. split; [exact Hrun|]. split.
  - apply (Hkeys (js "a.json")); [left | reflexivity | discriminate].
  - apply Hnone. by apply (bool_decide_unpack _).
Defined.

(** The same call, evaluated: the content of [__proto__.json] has become
    the prototype of the object that is returned. *)
Example readAllMetadata_proto :
  match (@readAllMetadata plain_join plain_extname plain_basename
           (listing [js "a.json"; js "a.svg"; js "__proto__.json"]) sample_JSON
           (js "icons") world_proto).2 with
  | Returned m =>
      own m !! js "a" = Some doc_home
      /\ own m !! js "__proto__" = None
      /\ proto m = ValuePrototype doc_house
  | Thrown _ => False
  end.
Proof. vm_compute. repeat split. Qed.

Lemma readAllMetadata_fails_witness :
  exists e,
    @readAllMetadata plain_join plain_extname plain_basename
      (listing [js "home.json"; js "home.svg"]) sample_JSON
      (js "icons") (world_with_metadata (js "{"))
    = (world_with_metadata (js "{"), Thrown e).
Proof.
  apply (@readAllMetadata_fails plain_join plain_extname plain_basename
           (listing [js "home.json"; js "home.svg"]) sample_JSON
           (js "icons") (world_with_metadata (js "{"))
           [js "home.json"; js "home.svg"] (js "home.json"));
    [reflexivity | left | reflexivity |].
  intros v (text & Htext & Hparse).
  vm_compute in Htext. injection Htext as <-.
  vm_compute in Hparse. discriminate.
Defined.
